(** * DictationButton: the dictation session of Echo-wve

    A shallow embedding of [src/zip/components/DictationButton.tsx]: the
    recognition result handler, the silence detector ([monitorAudio]) and the
    start/stop coordinator ([startDictation], [stopDictation]), run against an
    explicit model of the browser host (timer table, animation-frame table,
    media streams, audio contexts, recognizers, a simulated clock). *)

From Stdlib Require Import String Ascii.
From Stdlib Require Import ZArith NArith QArith List Bool Lia.
Import ListNotations.
Local Open Scope Z_scope.

(* ================================================================== *)
(** ** JavaScript strings *)

(** A JavaScript string is a sequence of UTF-16 code units. *)
Module JSString.

Definition jsstring := list N.

(** ECMAScript [WhiteSpace] and [LineTerminator] code points, the ones
    [String.prototype.trim] strips; all of them are single code units. *)
Definition isWhiteSpace (c : N) : bool :=
  ((9 <=? c) && (c <=? 13) || (c =? 32) || (c =? 160) || (c =? 5760)
   || (8192 <=? c) && (c <=? 8202) || (c =? 8232) || (c =? 8233)
   || (c =? 8239) || (c =? 8287) || (c =? 12288) || (c =? 65279))%N.

Fixpoint trimStart (s : jsstring) : jsstring :=
  match s with
  | c :: r => if isWhiteSpace c then trimStart r else s
  | [] => []
  end.

Definition trimEnd (s : jsstring) : jsstring := rev (trimStart (rev s)).

Definition trim (s : jsstring) : jsstring := trimEnd (trimStart s).

(** [if (s)] on a string: the empty string is the only falsy one. *)
Definition truthy (s : jsstring) : bool :=
  match s with [] => false | _ :: _ => true end.

(** ASCII literals, for examples. *)
Definition of_string (s : string) : jsstring :=
  map N_of_ascii (list_ascii_of_string s).

(** No white space at either end. *)
Definition trimmed (s : jsstring) : Prop :=
  (forall c r, s = c :: r -> isWhiteSpace c = false) /\
  (forall c r, s = r ++ [c] -> isWhiteSpace c = false).

End JSString.
Import JSString.

(* ================================================================== *)
(** ** Web Speech API data *)

Record SpeechRecognitionAlternative := { transcript : jsstring }.

(** A result is indexed by alternative; [r[0]] is the top hypothesis. *)
Record SpeechRecognitionResult := {
  isFinal : bool;
  alternatives : list SpeechRecognitionAlternative
}.

Record SpeechRecognitionEvent := {
  resultIndex : nat;
  results : list SpeechRecognitionResult
}.

(* ================================================================== *)
(** ** Constants for silence detection *)

Definition SILENCE_DURATION_MS : Z := 2000.
Definition FFT_SIZE : Z := 256.
Definition SILENCE_THRESHOLD : Z := 5.

(* ================================================================== *)
(** ** The component and its host *)

Inductive JSError :=
| TypeError
| InvalidStateError
| NotAllowedError
| NotSupportedError.

(** The React state and refs of one mounted [DictationButton], followed by
    the part of the browser the component talks to.  Objects (recognizer,
    stream, audio context) are represented by their identity; timer and
    animation-frame handles are the numbers the host returns. *)
Record World := mkWorld {
  isDictating : bool;
  recognitionRef : option Z;
  audioContextRef : option Z;
  streamRef : option Z;
  silenceTimerRef : option Z;
  animationFrameRef : option Z;
  (* host *)
  clock : Z;                  (* simulated time, ms *)
  nextHandle : Z;             (* supply of fresh handles and identities *)
  timers : list (Z * Z);      (* pending timeouts: handle, deadline *)
  frames : list Z;            (* pending animation-frame callbacks *)
  liveStreams : list Z;       (* streams whose tracks are live *)
  openContexts : list Z;      (* audio contexts whose state is not 'closed' *)
  recognizing : list Z;       (* recognizers that are started *)
  alerts : list string;       (* window.alert calls *)
  console : list string;      (* console.error calls *)
  dictated : list jsstring    (* calls of the onDictation prop *)
}.

Definition set_isDictating v w := mkWorld v (recognitionRef w) (audioContextRef w) (streamRef w) (silenceTimerRef w) (animationFrameRef w) (clock w) (nextHandle w) (timers w) (frames w) (liveStreams w) (openContexts w) (recognizing w) (alerts w) (console w) (dictated w).
Definition set_recognitionRef v w := mkWorld (isDictating w) v (audioContextRef w) (streamRef w) (silenceTimerRef w) (animationFrameRef w) (clock w) (nextHandle w) (timers w) (frames w) (liveStreams w) (openContexts w) (recognizing w) (alerts w) (console w) (dictated w).
Definition set_audioContextRef v w := mkWorld (isDictating w) (recognitionRef w) v (streamRef w) (silenceTimerRef w) (animationFrameRef w) (clock w) (nextHandle w) (timers w) (frames w) (liveStreams w) (openContexts w) (recognizing w) (alerts w) (console w) (dictated w).
Definition set_streamRef v w := mkWorld (isDictating w) (recognitionRef w) (audioContextRef w) v (silenceTimerRef w) (animationFrameRef w) (clock w) (nextHandle w) (timers w) (frames w) (liveStreams w) (openContexts w) (recognizing w) (alerts w) (console w) (dictated w).
Definition set_silenceTimerRef v w := mkWorld (isDictating w) (recognitionRef w) (audioContextRef w) (streamRef w) v (animationFrameRef w) (clock w) (nextHandle w) (timers w) (frames w) (liveStreams w) (openContexts w) (recognizing w) (alerts w) (console w) (dictated w).
Definition set_animationFrameRef v w := mkWorld (isDictating w) (recognitionRef w) (audioContextRef w) (streamRef w) (silenceTimerRef w) v (clock w) (nextHandle w) (timers w) (frames w) (liveStreams w) (openContexts w) (recognizing w) (alerts w) (console w) (dictated w).
Definition set_clock v w := mkWorld (isDictating w) (recognitionRef w) (audioContextRef w) (streamRef w) (silenceTimerRef w) (animationFrameRef w) v (nextHandle w) (timers w) (frames w) (liveStreams w) (openContexts w) (recognizing w) (alerts w) (console w) (dictated w).
Definition set_nextHandle v w := mkWorld (isDictating w) (recognitionRef w) (audioContextRef w) (streamRef w) (silenceTimerRef w) (animationFrameRef w) (clock w) v (timers w) (frames w) (liveStreams w) (openContexts w) (recognizing w) (alerts w) (console w) (dictated w).
Definition set_timers v w := mkWorld (isDictating w) (recognitionRef w) (audioContextRef w) (streamRef w) (silenceTimerRef w) (animationFrameRef w) (clock w) (nextHandle w) v (frames w) (liveStreams w) (openContexts w) (recognizing w) (alerts w) (console w) (dictated w).
Definition set_frames v w := mkWorld (isDictating w) (recognitionRef w) (audioContextRef w) (streamRef w) (silenceTimerRef w) (animationFrameRef w) (clock w) (nextHandle w) (timers w) v (liveStreams w) (openContexts w) (recognizing w) (alerts w) (console w) (dictated w).
Definition set_liveStreams v w := mkWorld (isDictating w) (recognitionRef w) (audioContextRef w) (streamRef w) (silenceTimerRef w) (animationFrameRef w) (clock w) (nextHandle w) (timers w) (frames w) v (openContexts w) (recognizing w) (alerts w) (console w) (dictated w).
Definition set_openContexts v w := mkWorld (isDictating w) (recognitionRef w) (audioContextRef w) (streamRef w) (silenceTimerRef w) (animationFrameRef w) (clock w) (nextHandle w) (timers w) (frames w) (liveStreams w) v (recognizing w) (alerts w) (console w) (dictated w).
Definition set_recognizing v w := mkWorld (isDictating w) (recognitionRef w) (audioContextRef w) (streamRef w) (silenceTimerRef w) (animationFrameRef w) (clock w) (nextHandle w) (timers w) (frames w) (liveStreams w) (openContexts w) v (alerts w) (console w) (dictated w).
Definition set_alerts v w := mkWorld (isDictating w) (recognitionRef w) (audioContextRef w) (streamRef w) (silenceTimerRef w) (animationFrameRef w) (clock w) (nextHandle w) (timers w) (frames w) (liveStreams w) (openContexts w) (recognizing w) v (console w) (dictated w).
Definition set_console v w := mkWorld (isDictating w) (recognitionRef w) (audioContextRef w) (streamRef w) (silenceTimerRef w) (animationFrameRef w) (clock w) (nextHandle w) (timers w) (frames w) (liveStreams w) (openContexts w) (recognizing w) (alerts w) v (dictated w).
Definition set_dictated v w := mkWorld (isDictating w) (recognitionRef w) (audioContextRef w) (streamRef w) (silenceTimerRef w) (animationFrameRef w) (clock w) (nextHandle w) (timers w) (frames w) (liveStreams w) (openContexts w) (recognizing w) (alerts w) (console w) v.

(* ------------------------------------------------------------------ *)
(** *** Computations: state that survives a throw *)

Inductive Completion (A : Type) :=
| Normal (a : A)
| Throw (e : JSError).
Arguments Normal {A} a.
Arguments Throw {A} e.

Definition M (A : Type) := World -> Completion A * World.

Definition ret {A} (a : A) : M A := fun w => (Normal a, w).
Definition throw {A} (e : JSError) : M A := fun w => (Throw e, w).

Definition bind {A B} (m : M A) (k : A -> M B) : M B :=
  fun w => match m w with
           | (Normal a, w') => k a w'
           | (Throw e, w') => (Throw e, w')
           end.

(** [try { body } catch (e) { handler e }] *)
Definition try_catch {A} (body : M A) (handler : JSError -> M A) : M A :=
  fun w => match body w with
           | (Normal a, w') => (Normal a, w')
           | (Throw e, w') => handler e w'
           end.

Definition read {A} (f : World -> A) : M A := fun w => (Normal (f w), w).
Definition modify (f : World -> World) : M unit := fun w => (Normal tt, f w).

Declare Scope js_scope.
Delimit Scope js_scope with js.
Notation "x <- m ;; k" := (bind m (fun x => k))
  (at level 61, m at next level, right associativity) : js_scope.
Notation "m ;; k" := (bind m (fun _ => k))
  (at level 61, right associativity) : js_scope.
Local Open Scope js_scope.

(** The world an event handler leaves behind. *)
Definition exec {A} (m : M A) (w : World) : World := snd (m w).

(** [if (h)] on a numeric handle: [null] and [0] are falsy. *)
Definition truthy_handle (h : option Z) : option Z :=
  match h with
  | Some n => if n =? 0 then None else Some n
  | None => None
  end.

Definition mem (x : Z) (l : list Z) : bool := existsb (Z.eqb x) l.
Definition remove (x : Z) (l : list Z) : list Z :=
  filter (fun y => negb (y =? x)) l.

(* ------------------------------------------------------------------ *)
(** *** Host operations *)

Definition fresh : M Z :=
  fun w => (Normal (nextHandle w), set_nextHandle (nextHandle w + 1) w).

Definition setTimeout (ms : Z) : M Z :=
  id <- fresh ;;
  modify (fun w => set_timers (timers w ++ [(id, clock w + ms)]) w) ;;
  ret id.

Definition clearTimeout (id : Z) : M unit :=
  modify (fun w => set_timers (filter (fun e => negb (fst e =? id)) (timers w)) w).

Definition requestAnimationFrame : M Z :=
  id <- fresh ;;
  modify (fun w => set_frames (frames w ++ [id]) w) ;;
  ret id.

Definition cancelAnimationFrame (id : Z) : M unit :=
  modify (fun w => set_frames (remove id (frames w)) w).

(** [stream.getTracks().forEach(track => track.stop())] *)
Definition stopTracks (stream : Z) : M unit :=
  modify (fun w => set_liveStreams (remove stream (liveStreams w)) w).

(** [audioContext.state !== 'closed'] *)
Definition contextNotClosed (ctx : Z) : M bool :=
  read (fun w => mem ctx (openContexts w)).

(** [audioContext.close()]; closing a closed context is an
    [InvalidStateError] (the host rejects the returned promise: counted
    here as a failure of the call). *)
Definition closeContext (ctx : Z) : M unit :=
  open <- contextNotClosed ctx ;;
  if open then modify (fun w => set_openContexts (remove ctx (openContexts w)) w)
  else throw InvalidStateError.

(** [recognition.stop()]: "can throw if already stopped". *)
Definition recognitionStop (r : Z) : M unit :=
  started <- read (fun w => mem r (recognizing w)) ;;
  if started then modify (fun w => set_recognizing (remove r (recognizing w)) w)
  else throw InvalidStateError.

Definition setIsDictating (b : bool) : M unit := modify (set_isDictating b).
Definition alert (msg : string) : M unit :=
  modify (fun w => set_alerts (alerts w ++ [msg]) w).
Definition console_error (msg : string) : M unit :=
  modify (fun w => set_console (console w ++ [msg]) w).
Definition onDictation (text : jsstring) : M unit :=
  modify (fun w => set_dictated (dictated w ++ [text]) w).

(** What the host answers during one [startDictation]: whether each
    acquisition step succeeds, and the first frame the analyser delivers. *)
Record StartEnv := {
  microphoneGranted : bool;       (* getUserMedia resolves *)
  audioContextConstructs : bool;  (* new AudioContext() returns *)
  graphConstructs : bool;         (* createMediaStreamSource/createAnalyser/connect *)
  recognizerStarts : bool;        (* recognition.start() accepted by the service *)
  firstFrame : list Z             (* first getByteTimeDomainData *)
}.

Definition getUserMedia (env : StartEnv) : M Z :=
  if microphoneGranted env then
    stream <- fresh ;;
    modify (fun w => set_liveStreams (liveStreams w ++ [stream]) w) ;;
    ret stream
  else throw NotAllowedError.

Definition newAudioContext (env : StartEnv) : M Z :=
  if audioContextConstructs env then
    ctx <- fresh ;;
    modify (fun w => set_openContexts (openContexts w ++ [ctx]) w) ;;
    ret ctx
  else throw NotSupportedError.

Definition buildGraph (env : StartEnv) : M unit :=
  if graphConstructs env then ret tt else throw InvalidStateError.

(** [recognition.start()] throws when the recognizer is already started
    or the service refuses. *)
Definition recognitionStart (env : StartEnv) (r : Z) : M unit :=
  started <- read (fun w => mem r (recognizing w)) ;;
  if started || negb (recognizerStarts env) then throw InvalidStateError
  else modify (fun w => set_recognizing (recognizing w ++ [r]) w).

(* ================================================================== *)
(** ** The component *)

(** [stopDictation]: the single stop path. *)
Definition stopDictation : M unit :=
  r <- read recognitionRef ;;
  match r with
  | Some rec => try_catch (recognitionStop rec) (fun _ => ret tt)
  | None => ret tt
  end ;;
  af <- read animationFrameRef ;;
  match truthy_handle af with
  | Some id => cancelAnimationFrame id ;; modify (set_animationFrameRef None)
  | None => ret tt
  end ;;
  st <- read silenceTimerRef ;;
  match truthy_handle st with
  | Some id => clearTimeout id ;; modify (set_silenceTimerRef None)
  | None => ret tt
  end ;;
  s <- read streamRef ;;
  match s with
  | Some stream => stopTracks stream ;; modify (set_streamRef None)
  | None => ret tt
  end ;;
  c <- read audioContextRef ;;
  match c with
  | Some ctx =>
      open <- contextNotClosed ctx ;;
      if open then closeContext ctx ;; modify (set_audioContextRef None)
      else ret tt
  | None => ret tt
  end ;;
  setIsDictating false.

(** The loop of [monitorAudio] over [dataArray]. *)
Definition frameSum (dataArray : list Z) : Z :=
  fold_left (fun sum d => sum + Z.abs (d - 128)) dataArray 0.

(** [sum / dataArray.length]; [None] is the NaN of an empty frame. The
    quotient of two integers below 2^53 compares with 5 in double
    precision as it does exactly. *)
Definition averageVolume (dataArray : list Z) : option Q :=
  match dataArray with
  | [] => None
  | _ :: _ => Some (Qmake (frameSum dataArray) (Pos.of_nat (length dataArray)))
  end.

(** [averageVolume > SILENCE_THRESHOLD]; a comparison with NaN is false. *)
Definition isSpeaking (dataArray : list Z) : bool :=
  match averageVolume dataArray with
  | Some v => negb (Qle_bool v (inject_Z SILENCE_THRESHOLD))
  | None => false
  end.

(** One run of [monitorAudio], on the frame the analyser delivers. *)
Definition monitorAudio (dataArray : list Z) : M unit :=
  (if isSpeaking dataArray then
     st <- read silenceTimerRef ;;
     match truthy_handle st with
     | Some id => clearTimeout id ;; modify (set_silenceTimerRef None)
     | None => ret tt
     end
   else
     st <- read silenceTimerRef ;;
     match truthy_handle st with
     | Some _ => ret tt
     | None =>
         id <- setTimeout SILENCE_DURATION_MS ;;
         modify (set_silenceTimerRef (Some id))
     end) ;;
  id <- requestAnimationFrame ;;
  modify (set_animationFrameRef (Some id)).

(** [startDictation], run to completion against the host's answers. *)
Definition startDictation (env : StartEnv) : M unit :=
  r <- read recognitionRef ;;
  match r with
  | None => ret tt
  | Some _ =>
      setIsDictating true ;;
      try_catch
        (stream <- getUserMedia env ;;
         modify (set_streamRef (Some stream)) ;;
         audioContext <- newAudioContext env ;;
         modify (set_audioContextRef (Some audioContext)) ;;
         buildGraph env ;;
         monitorAudio (firstFrame env) ;;
         r' <- read recognitionRef ;;
         match r' with
         | Some rec => recognitionStart env rec
         | None => throw TypeError
         end)
        (fun _ =>
           console_error "Error starting dictation:" ;;
           alert "Could not start dictation. Please ensure microphone permissions are granted." ;;
           stopDictation)
  end.

(** The loop of [recognition.onresult], from index [i] for [n] entries. *)
Fixpoint scanResults (rs : list SpeechRecognitionResult) (i n : nat)
    (finalTranscript : jsstring) : Completion jsstring :=
  match n with
  | O => Normal finalTranscript
  | S n' =>
      match nth_error rs i with
      | None => Throw TypeError
      | Some r =>
          if isFinal r then
            match nth_error (alternatives r) 0 with
            | Some a => scanResults rs (S i) n' (finalTranscript ++ transcript a)
            | None => Throw TypeError
            end
          else scanResults rs (S i) n' finalTranscript
      end
  end.

Definition onresult (event : SpeechRecognitionEvent) : M unit :=
  match scanResults (results event) (resultIndex event)
          (length (results event) - resultIndex event) [] with
  | Throw e => throw e
  | Normal finalTranscript =>
      if truthy finalTranscript then onDictation (trim finalTranscript)
      else ret tt
  end.

Definition onend : M unit := stopDictation.
Definition onerror (error : string) : M unit :=
  console_error ("Speech recognition error: " ++ error) ;; stopDictation.

(** The effect of [useEffect] at mount: the recognizer is created once,
    when the host supports speech recognition. *)
Definition mount (isSupported : bool) : M unit :=
  if isSupported then
    recognition <- fresh ;;
    modify (set_recognitionRef (Some recognition))
  else ret tt.

Definition unmount : M unit := stopDictation.

Definition toggleDictation (env : StartEnv) : M unit :=
  d <- read isDictating ;;
  if d then stopDictation else startDictation env.

(* ------------------------------------------------------------------ *)
(** *** The event loop on simulated time *)

(** Fire the timeouts that are due at time [t], oldest first; the only
    callback ever registered with [setTimeout] is [stopDictation]. *)
Fixpoint fireTimers (fuel : nat) (t : Z) (w : World) : World :=
  match fuel with
  | O => w
  | S k =>
      match find (fun e => snd e <=? t) (timers w) with
      | Some (id, d) =>
          let w1 := set_clock (Z.max (clock w) d)
                      (set_timers (filter (fun e => negb (fst e =? id)) (timers w)) w) in
          fireTimers k t (exec stopDictation w1)
      | None => w
      end
  end.

(** Let simulated time run up to [t]. *)
Definition advance (t : Z) (w : World) : World :=
  let w' := fireTimers (length (timers w)) t w in
  set_clock (Z.max (clock w') t) w'.

(** Run one pending animation-frame callback (always [monitorAudio]),
    unless it was cancelled meanwhile. *)
Definition runFrameCallback (dataArray : list Z) (w : World) (id : Z) : World :=
  if mem id (frames w)
  then exec (monitorAudio dataArray) (set_frames (remove id (frames w)) w)
  else w.

(** One rendering step: the callbacks pending at its start are run. *)
Definition animationFrame (dataArray : list Z) (w : World) : World :=
  fold_left (runFrameCallback dataArray) (frames w) w.

(** A tick: time runs to [t], then a frame is rendered with the samples
    the analyser holds then. *)
Definition tick (tk : Z * list Z) (w : World) : World :=
  animationFrame (snd tk) (advance (fst tk) w).

Fixpoint run (ticks : list (Z * list Z)) (w : World) : World :=
  match ticks with
  | [] => w
  | tk :: rest => run rest (tick tk w)
  end.

(** The worlds after each tick of a run. *)
Fixpoint history (ticks : list (Z * list Z)) (w : World) : list World :=
  match ticks with
  | [] => []
  | tk :: rest => tick tk w :: history rest (tick tk w)
  end.

(** A freshly loaded page. *)
Definition init : World :=
  mkWorld false None None None None None 0 1 [] [] [] [] [] [] [] [].

(* ================================================================== *)
(** ** Session states *)

(** [Active]: a session that started successfully and whose monitoring
    loop is scheduled.  Every handle the component holds is the one the
    host knows, handles are non-zero and below the host's supply, and a
    pending silence timer was armed at most [SILENCE_DURATION_MS] ago. *)
Record Listening (w : World) : Prop := {
  L_dictating : isDictating w = true;
  L_recognizer : exists r, recognitionRef w = Some r /\ recognizing w = [r] /\
                           r < nextHandle w;
  L_stream : exists s, streamRef w = Some s /\ liveStreams w = [s] /\ s < nextHandle w;
  L_context : exists c, audioContextRef w = Some c /\ openContexts w = [c] /\ c < nextHandle w;
  L_frame : exists f, animationFrameRef w = Some f /\ frames w = [f] /\
                      f <> 0 /\ f < nextHandle w;
  L_timer : (silenceTimerRef w = None /\ timers w = []) \/
            (exists t d, silenceTimerRef w = Some t /\ timers w = [(t, d)] /\
                         t <> 0 /\ t < nextHandle w /\
                         d <= clock w + SILENCE_DURATION_MS);
  L_supply : 0 < nextHandle w
}.

(** [Idle]: nothing held by the component, nothing left with the host. *)
Record Idle (w : World) : Prop := {
  I_dictating : isDictating w = false;
  I_context : audioContextRef w = None;
  I_stream : streamRef w = None;
  I_timer : silenceTimerRef w = None;
  I_frame : animationFrameRef w = None;
  I_timers : timers w = [];
  I_frames : frames w = [];
  I_streams : liveStreams w = [];
  I_contexts : openContexts w = [];
  I_recognizing : recognizing w = []
}.

(** Mounted on a host with speech recognition: the recognizer exists. *)
Definition Mounted (w : World) : Prop :=
  (exists r, recognitionRef w = Some r /\ r < nextHandle w) /\ 0 < nextHandle w.

(** Every acquisition step of a start succeeds. *)
Definition succeeds (env : StartEnv) : bool :=
  microphoneGranted env && audioContextConstructs env &&
  graphConstructs env && recognizerStarts env.

(** The list [l] once the object or handle held in [h] is taken out. *)
Definition without (h : option Z) (l : list Z) : list Z :=
  match h with Some x => remove x l | None => l end.

Definition timersWithout (h : option Z) (l : list (Z * Z)) : list (Z * Z) :=
  match h with
  | Some x => filter (fun e => negb (fst e =? x)) l
  | None => l
  end.

(** The handles the component holds can be released: numeric handles are
    non-zero, a held audio context is not closed. *)
Record Releasable (w : World) : Prop := {
  R_frame : forall f, animationFrameRef w = Some f -> f <> 0;
  R_timer : forall t, silenceTimerRef w = Some t -> t <> 0;
  R_context : forall c, audioContextRef w = Some c -> mem c (openContexts w) = true
}.

(** The world [stopDictation] leaves. *)
Definition released (w : World) : World :=
  mkWorld false (recognitionRef w) None None None None (clock w) (nextHandle w)
    (timersWithout (silenceTimerRef w) (timers w))
    (without (animationFrameRef w) (frames w))
    (without (streamRef w) (liveStreams w))
    (without (audioContextRef w) (openContexts w))
    (without (recognitionRef w) (recognizing w))
    (alerts w) (console w) (dictated w).

(** The notification of a failed start. *)
Definition startAlert : string :=
  "Could not start dictation. Please ensure microphone permissions are granted.".

(** The world a successful start leaves, from an idle mounted component:
    stream, context, (on a quiet first frame) silence timer and
    animation frame take the next handles of the host in this order. *)
Definition started (env : StartEnv) (w : World) : World :=
  let nh := nextHandle w in
  let sp := isSpeaking (firstFrame env) in
  mkWorld true (recognitionRef w) (Some (nh + 1)) (Some nh)
    (if sp then None else Some (nh + 1 + 1))
    (Some (if sp then nh + 1 + 1 else nh + 1 + 1 + 1))
    (clock w)
    (if sp then nh + 1 + 1 + 1 else nh + 1 + 1 + 1 + 1)
    (if sp then [] else [(nh + 1 + 1, clock w + SILENCE_DURATION_MS)])
    [if sp then nh + 1 + 1 else nh + 1 + 1 + 1]
    [nh] [nh + 1]
    (match recognitionRef w with Some r => [r] | None => [] end)
    (alerts w) (console w) (dictated w).

(** The world one run of the loop leaves, from an active session. *)
Definition monitored (dataArray : list Z) (w : World) : World :=
  let nh := nextHandle w in
  if isSpeaking dataArray then
    set_animationFrameRef (Some nh) (set_frames [nh] (set_nextHandle (nh + 1)
      (set_silenceTimerRef None (set_timers [] w))))
  else
    match timers w with
    | [] =>
        set_animationFrameRef (Some (nh + 1)) (set_frames [nh + 1]
          (set_nextHandle (nh + 1 + 1)
            (set_silenceTimerRef (Some nh)
              (set_timers [(nh, clock w + SILENCE_DURATION_MS)] w))))
    | _ :: _ =>
        set_animationFrameRef (Some nh) (set_frames [nh]
          (set_nextHandle (nh + 1) w))
    end.

(** A mounted component between or during sessions. *)
Definition Session (w : World) : Prop := Listening w \/ Idle w.

(** Tick times do not go back. *)
Fixpoint ascending (ts : list Z) : Prop :=
  match ts with
  | a :: (b :: _) as rest => a <= b /\ ascending rest
  | _ => True
  end.

(** Tick time covered by a schedule, first tick to last. *)
Definition span (ticks : list (Z * list Z)) : Z :=
  match ticks with
  | [] => 0
  | tk :: _ => fst (last ticks tk) - fst tk
  end.

Definition quiet (tk : Z * list Z) : Prop := isSpeaking (snd tk) = false.

(** The deadline of the pending silence timer, or the one a quiet sample
    at time [t] would set. *)
Definition deadline (w : World) (t : Z) : Z :=
  match timers w with
  | (_, d) :: _ => d
  | [] => t + SILENCE_DURATION_MS
  end.

(** The sound alternates every 1000 ms from [origin] on; [phase] says
    whether the windows of even rank are the quiet ones. *)
Definition speakingAt (phase : bool) (origin t : Z) : bool :=
  xorb phase (Z.even ((t - origin) / 1000)).

(** Consecutive ticks are at most 1000 ms apart. *)
Fixpoint paced (ts : list Z) : Prop :=
  match ts with
  | a :: (b :: _) as rest => a <= b <= a + 1000 /\ paced rest
  | _ => True
  end.

Definition alternating (phase : bool) (origin : Z) (tk : Z * list Z) : Prop :=
  isSpeaking (snd tk) = speakingAt phase origin (fst tk).

(** A pending timer was armed in the current window, a quiet one. *)
Definition armedInWindow (phase : bool) (origin : Z) (w : World) : Prop :=
  forall id d, In (id, d) (timers w) ->
    speakingAt phase origin (clock w) = false /\
    1000 * ((clock w - origin) / 1000) + origin + SILENCE_DURATION_MS <= d.

(** The top hypothesis of a result. *)
Definition topTranscript (r : SpeechRecognitionResult) : jsstring :=
  match alternatives r with
  | a :: _ => transcript a
  | [] => []
  end.

(** The specification's reading of the scan: the top transcripts of the
    final entries from [resultIndex] to the end, in result order. *)
Definition finalText (event : SpeechRecognitionEvent) : jsstring :=
  concat (map topTranscript
            (filter isFinal (skipn (resultIndex event) (results event)))).

(** Every final entry in the scanned range has a top hypothesis. *)
Definition wellFormed (event : SpeechRecognitionEvent) : Prop :=
  Forall (fun r => isFinal r = true -> alternatives r <> [])
         (skipn (resultIndex event) (results event)).

(** A final result that is a single space. *)
Definition whitespaceEvent : SpeechRecognitionEvent :=
  {| resultIndex := 0;
     results := [ {| isFinal := true;
                     alternatives := [ {| transcript := of_string " " |} ] |} ] |}.

(* ------------------------------------------------------------------ *)
(** *** Concrete sessions *)

(** Frames of [FFT_SIZE / 2] samples: silence at the midpoint, and a loud
    one. *)
Definition silentFrame : list Z := repeat 128 128%nat.
Definition loudFrame : list Z := repeat 160 128%nat.

Definition grantAll (frame : list Z) : StartEnv :=
  {| microphoneGranted := true; audioContextConstructs := true;
     graphConstructs := true; recognizerStarts := true;
     firstFrame := frame |}.

Definition denyMicrophone : StartEnv :=
  {| microphoneGranted := false; audioContextConstructs := true;
     graphConstructs := true; recognizerStarts := true;
     firstFrame := silentFrame |}.

(** The component mounted on a fresh page, and a session started on it
    in silence, or while the user speaks. *)
Definition mounted : World := exec (mount true) init.
Definition session : World := exec (startDictation (grantAll silentFrame)) mounted.
Definition speakingSession : World :=
  exec (startDictation (grantAll loudFrame)) mounted.

(** Three ticks of silence, one second apart. *)
Definition silentTicks : list (Z * list Z) :=
  [(0, silentFrame); (1000, silentFrame); (2000, silentFrame)].

(** Ticks of a sound that is loud during the even seconds. *)
Definition alternatingTicks : list (Z * list Z) :=
  [(500, loudFrame); (1000, silentFrame); (1900, silentFrame);
   (2000, loudFrame); (2900, loudFrame); (3000, silentFrame);
   (3999, silentFrame); (4000, loudFrame)].

(** The event of the specification's example: three final results and an
    interim one. *)
Definition helloEvent : SpeechRecognitionEvent :=
  {| resultIndex := 0;
     results :=
       [ {| isFinal := true; alternatives := [ {| transcript := of_string "Hello " |} ] |};
         {| isFinal := true; alternatives := [ {| transcript := of_string "world" |} ] |};
         {| isFinal := true; alternatives := [ {| transcript := of_string "." |} ] |};
         {| isFinal := false; alternatives := [ {| transcript := of_string " and" |} ] |} ] |}.

(** The claim that the stop path nulls every handle the specification
    lists, the recognizer's included. *)
Definition allHandlesNull (w : World) : Prop :=
  recognitionRef w = None /\ streamRef w = None /\ audioContextRef w = None /\
  silenceTimerRef w = None /\ animationFrameRef w = None.

(* ================================================================== *)
(** ** The rest of the component and the application shell *)

(** [startDictation] up to its [await]: the guard and the optimistic
    update of the UI state.  The result says whether the function is
    suspended on [getUserMedia]. *)
Definition startDictationUntilAwait : M bool :=
  r <- read recognitionRef ;;
  match r with
  | None => ret false
  | Some _ => setIsDictating true ;; ret true
  end.

(** [startDictation] from the moment [getUserMedia] settles. *)
Definition startDictationAfterAwait (env : StartEnv) : M unit :=
  try_catch
    (stream <- getUserMedia env ;;
     modify (set_streamRef (Some stream)) ;;
     audioContext <- newAudioContext env ;;
     modify (set_audioContextRef (Some audioContext)) ;;
     buildGraph env ;;
     monitorAudio (firstFrame env) ;;
     r' <- read recognitionRef ;;
     match r' with
     | Some rec => recognitionStart env rec
     | None => throw TypeError
     end)
    (fun _ =>
       console_error "Error starting dictation:" ;;
       alert "Could not start dictation. Please ensure microphone permissions are granted." ;;
       stopDictation).

(** The effect of [useEffect] run again because [onDictation] changed:
    the cleanup of the previous run (registered only on a supporting
    host), then the effect body. *)
Definition rerunEffect (isSupported : bool) : M unit :=
  (if isSupported then stopDictation else ret tt) ;;
  mount isSupported.

(** A sequence of clicks on the button, each with the host's answers
    for the start it may cause. *)
Definition clicks (envs : list StartEnv) (w : World) : World :=
  fold_left (fun w env => exec (toggleDictation env) w) envs w.

(** Samples are bytes. *)
Definition byteFrame (dataArray : list Z) : Prop :=
  Forall (fun d => 0 <= d <= 255) dataArray.

(** The concatenated top transcripts of the final entries of a list of
    results. *)
Definition finalTextOf (rs : list SpeechRecognitionResult) : jsstring :=
  concat (map topTranscript (filter isFinal rs)).

(** The call of [onDictation] the handler makes for an accumulated
    string, if any. *)
Definition forwarded (finalTranscript : jsstring) : list jsstring :=
  if truthy finalTranscript then [trim finalTranscript] else [].

(* ------------------------------------------------------------------ *)
(** *** App: the text and the speech request *)

Inductive ToastType := loading | success | error.

(** [ToastMessage]; the fields [id], [type] and [message]. *)
Record ToastMessage := {
  toast_id : Z;
  toast_type : ToastType;
  toast_message : string
}.

(** The state of [App] its handlers read and write.  The voice, the
    language and the three style strings are only passed on to
    [generateSpeech]. *)
Record AppState := mkApp {
  text : jsstring;
  isLoading : bool;
  audioData : option string;
  toast : option ToastMessage
}.

Definition setText v (s : AppState) := mkApp v (isLoading s) (audioData s) (toast s).
Definition setIsLoading v (s : AppState) := mkApp (text s) v (audioData s) (toast s).
Definition setAudioData v (s : AppState) := mkApp (text s) (isLoading s) v (toast s).
Definition setToast v (s : AppState) := mkApp (text s) (isLoading s) (audioData s) v.

(** [showToast]; [now] is [Date.now()]. *)
Definition showToast (now : Z) (type : ToastType) (message : string)
    (s : AppState) : AppState :=
  setToast (Some {| toast_id := now; toast_type := type; toast_message := message |}) s.

(** What [generateSpeech] settles with: audio data, or a thrown value
    that is an [Error] with a message or something else. *)
Inductive Thrown := ErrorObject (message : string) | OtherValue.
Inductive Settled := Resolved (data : string) | Rejected (err : Thrown).

(** [toast?.type === 'loading'] *)
Definition isLoadingToast (t : option ToastMessage) : bool :=
  match t with
  | Some m => match toast_type m with loading => true | _ => false end
  | None => false
  end.

(** [handleGenerateSpeech] up to its [await], on the state of the render
    it closes over; the result says whether [generateSpeech] was called. *)
Definition handleGenerateSpeechUntilAwait (now : Z) (s : AppState)
    : AppState * bool :=
  if negb (truthy (trim (text s))) then
    (showToast now error "Please enter some text to synthesize." s, false)
  else
    (showToast now loading "Generating speech, please wait..."
       (setAudioData None (setIsLoading true s)), true).

(** [handleGenerateSpeech] from the moment [generateSpeech] settles:
    [closure] is the state of the render the handler was created in, [s]
    the state at that moment. *)
Definition handleGenerateSpeechAfterAwait (closure : AppState) (now : Z)
    (outcome : Settled) (s : AppState) : AppState :=
  let s1 :=
    match outcome with
    | Resolved data =>
        showToast now success "Speech generated successfully!"
          (setAudioData (Some data) s)
    | Rejected err =>
        let errorMessage :=
          match err with
          | ErrorObject message => message
          | OtherValue => "An unknown error occurred."%string
          end in
        showToast now error ("Error: " ++ errorMessage) s
    end in
  let s2 := setIsLoading false s1 in
  if isLoadingToast (toast closure) then setToast None s2 else s2.

(** [handleGenerateSpeech] with nothing else happening during the wait. *)
Definition handleGenerateSpeech (now later : Z) (outcome : Settled)
    (s : AppState) : AppState :=
  match handleGenerateSpeechUntilAwait now s with
  | (s', true) => handleGenerateSpeechAfterAwait s later outcome s'
  | (s', false) => s'
  end.

Definition handleTextUpload (uploadedText : jsstring) (s : AppState) : AppState :=
  setText uploadedText s.

(** [handleDictation]: the update [prev => ...] applied to the text. *)
Definition handleDictation (dictatedText : jsstring) (s : AppState) : AppState :=
  setText (if truthy (text s)
           then trim (text s ++ of_string " " ++ dictatedText)
           else dictatedText) s.

(** Some code unit of the string is not white space. *)
Definition hasInk (s : jsstring) : Prop :=
  exists c, In c s /\ isWhiteSpace c = false.

(* ------------------------------------------------------------------ *)
(** *** Concrete inputs for the application and the events *)

(** A session whose audio context was closed behind the component's
    back. *)
Definition closedContextSession : World := set_openContexts [] session.

(** An event of two interim results, and one whose second result is
    final but carries no alternative. *)
Definition interimEvent : SpeechRecognitionEvent :=
  {| resultIndex := 0;
     results :=
       [ {| isFinal := false; alternatives := [ {| transcript := of_string "Hel" |} ] |};
         {| isFinal := false; alternatives := [ {| transcript := of_string "lo" |} ] |} ] |}.

Definition brokenEvent : SpeechRecognitionEvent :=
  {| resultIndex := 0;
     results :=
       [ {| isFinal := true; alternatives := [ {| transcript := of_string "Hello" |} ] |};
         {| isFinal := true; alternatives := [] |} ] |}.

Definition helloResults : list SpeechRecognitionResult :=
  [ {| isFinal := true; alternatives := [ {| transcript := of_string "Hello " |} ] |} ].

Definition worldResults : list SpeechRecognitionResult :=
  [ {| isFinal := false; alternatives := [ {| transcript := of_string "wor" |} ] |};
    {| isFinal := true; alternatives := [ {| transcript := of_string "world." |} ] |} ].

(** The application with a typed text, no audio and no toast; and the
    same while a loading toast is showing. *)
Definition typedApp : AppState :=
  mkApp (of_string "  Hi") false None None.

Definition loadingApp : AppState :=
  mkApp (of_string "Hi") true None
    (Some {| toast_id := 1; toast_type := loading;
             toast_message := "Generating speech, please wait..." |}).

(* ================================================================== *)
(** ** Proof tools *)

Ltac js_unfold :=
  unfold exec, stopDictation, startDictation, monitorAudio, onend, onerror,
    unmount, mount, setTimeout, clearTimeout, requestAnimationFrame,
    cancelAnimationFrame, stopTracks, closeContext, contextNotClosed,
    recognitionStop, recognitionStart, getUserMedia, newAudioContext,
    buildGraph, setIsDictating, alert, console_error, onDictation, fresh,
    bind, ret, throw, try_catch, read, modify, truthy_handle, mem, remove.

Ltac break_match :=
  match goal with
  | |- context [match ?x with _ => _ end] =>
      lazymatch x with
      | context [match _ with _ => _ end] => fail
      | _ => destruct x eqn:?
      end
  end.

Lemma eqb_neq_false (x y : Z) : x <> y -> (x =? y) = false.
Proof. intro H. now apply Z.eqb_neq. Qed.

(* ================================================================== *)
(** ** The stop path *)

(** C9. [stopDictation] never throws, whatever state it is called in:
    the recognizer's [stop] may throw and is caught, the context is only
    closed when its state is not closed, every other step is guarded by a
    null check. *)
Theorem stopDictation_never_throws :
  forall w, fst (stopDictation w) = Normal tt.
Proof.
  intros [d r c s st af clk nh tm fr ls oc rc al co di].
  js_unfold. cbn.
  repeat (break_match; cbn; try reflexivity; try discriminate);
    repeat match goal with
           | H : (_, _) = (_, _) |- _ => inversion H; clear H; subst
           | H : existsb _ _ = _, H' : existsb _ _ = _ |- _ =>
               rewrite H in H'; discriminate
           end; try reflexivity; try discriminate.
Qed.

(** C10. [startDictation] with no recognizer returns at once: the world
    (component state, refs, host tables, notifications) is unchanged. *)
Theorem startDictation_without_recognizer :
  forall env w, recognitionRef w = None ->
    startDictation env w = (Normal tt, w).
Proof.
  intros env w H. unfold startDictation, bind, read, ret. cbn.
  rewrite H. reflexivity.
Qed.

Lemma remove_absent (x : Z) (l : list Z) :
  mem x l = false -> remove x l = l.
Proof.
  unfold mem, remove. induction l as [|y l IH]; cbn; [reflexivity|].
  rewrite orb_false_iff. intros [Hxy Hl].
  rewrite Z.eqb_sym, Hxy. cbn. now rewrite IH.
Qed.

Ltac inv_pairs :=
  repeat match goal with
         | H : (_, _) = (_, _) |- _ => inversion H; clear H; subst
         end.

Lemma stopDictation_released (w : World) :
  Releasable w -> stopDictation w = (Normal tt, released w).
Proof.
  intros [Hf Ht Hc].
  destruct w as [d r c s st af clk nh tm fr ls oc rc al co di].
  cbn [animationFrameRef silenceTimerRef audioContextRef openContexts]
    in Hf, Ht, Hc.
  assert (Hf' : forall f, af = Some f -> (f =? 0) = false)
    by (intros f E; apply Z.eqb_neq; auto).
  assert (Ht' : forall t, st = Some t -> (t =? 0) = false)
    by (intros t E; apply Z.eqb_neq; auto).
  clear Hf Ht. unfold mem in Hc.
  unfold released, without, timersWithout.
  js_unfold; cbn.
  repeat (break_match; cbn); inv_pairs; try discriminate;
    repeat match goal with
           | H : forall x, Some ?y = Some x -> _ |- _ =>
               specialize (H y eq_refl)
           | H : forall x, None = Some x -> _ |- _ => clear H
           end;
    try congruence; try reflexivity.
  all: cbn; unfold mem, remove in *;
    repeat match goal with
           | H : existsb (Z.eqb ?x) ?l = false |- _ =>
               rewrite (remove_absent x l H
                        : filter (fun y => negb (y =? x)) l = l)
           end; reflexivity.
Qed.

Lemma Listening_releasable (w : World) : Listening w -> Releasable w.
Proof.
  intros [_ _ _ (c & Hc & Hoc & _) (f & Hf & _ & Hf0 & _) Ht _].
  split.
  - intros f' E. congruence.
  - intros t E. destruct Ht as [[Hn _]|(t' & d & Hs & _ & Ht0 & _)]; congruence.
  - intros c' E. rewrite Hoc. assert (c' = c) by congruence. subst.
    unfold mem; cbn. now rewrite Z.eqb_refl.
Qed.

Lemma remove_single (x : Z) : remove x [x] = [].
Proof. unfold remove; cbn. now rewrite Z.eqb_refl. Qed.

Lemma Listening_released_Idle (w : World) : Listening w -> Idle (released w).
Proof.
  intros [_ (r & Hr & Hrc & _) (s & Hs & Hls & _) (c & Hc & Hoc & _)
            (f & Hf & Hfr & _) Ht _].
  unfold released. split; cbn; try reflexivity.
  - destruct Ht as [[Hn Hl]|(t & d & Hst & Hl & _)]; rewrite ?Hn, ?Hst, Hl; cbn;
      [reflexivity|]. now rewrite Z.eqb_refl.
  - rewrite Hf, Hfr. apply remove_single.
  - rewrite Hs, Hls. apply remove_single.
  - rewrite Hc, Hoc. apply remove_single.
  - rewrite Hr, Hrc. apply remove_single.
Qed.

Lemma Idle_releasable (w : World) : Idle w -> Releasable w.
Proof.
  intros [_ Hc _ Ht Hf _ _ _ _ _]. split; intros x E; congruence.
Qed.

Lemma Idle_released (w : World) : Idle w -> released w = w.
Proof.
  intros [Hd Hc Hs Ht Hf Htm Hfr Hls Hoc Hrc].
  destruct w; cbn in *; subst. unfold released; cbn.
  destruct recognitionRef0; reflexivity.
Qed.

(** C1. Stopping twice from an active session: the first call ends in
    [Idle] (all four session handles null, nothing pending or live on the
    host), and the second call returns normally and leaves the world
    exactly as it found it. *)
Theorem stopDictation_idempotent :
  forall w, Listening w ->
    let w1 := exec stopDictation w in
    fst (stopDictation w) = Normal tt /\
    Idle w1 /\
    animationFrameRef w1 = None /\ silenceTimerRef w1 = None /\
    streamRef w1 = None /\ audioContextRef w1 = None /\
    stopDictation w1 = (Normal tt, w1).
Proof.
  intros w L. cbv zeta. unfold exec.
  rewrite (stopDictation_released w (Listening_releasable w L)). cbn [fst snd].
  pose proof (Listening_released_Idle w L) as HI.
  split; [reflexivity|]. split; [exact HI|].
  repeat (split; [reflexivity|]).
  rewrite (stopDictation_released _ (Idle_releasable _ HI)).
  now rewrite (Idle_released _ HI).
Qed.

(* ================================================================== *)
(** ** The start path *)

(** Evaluate a handler on a world given by its fields: unfold the
    handler and the host operations, decide the handle comparisons. *)
Ltac js_red :=
  cbv beta iota zeta delta
    [exec stopDictation startDictation monitorAudio onend onerror unmount
     mount setTimeout clearTimeout requestAnimationFrame cancelAnimationFrame
     stopTracks closeContext contextNotClosed recognitionStop
     recognitionStart getUserMedia newAudioContext buildGraph setIsDictating
     alert console_error onDictation fresh bind ret throw try_catch read
     modify truthy_handle mem remove
     set_isDictating set_recognitionRef set_audioContextRef set_streamRef
     set_silenceTimerRef set_animationFrameRef set_clock set_nextHandle
     set_timers set_frames set_liveStreams set_openContexts set_recognizing
     set_alerts set_console set_dictated
     isDictating recognitionRef audioContextRef streamRef silenceTimerRef
     animationFrameRef clock nextHandle timers frames liveStreams
     openContexts recognizing alerts console dictated
     microphoneGranted audioContextConstructs graphConstructs
     recognizerStarts firstFrame
     existsb filter negb orb andb app fst snd].

Ltac eqb_decide :=
  first
    [ rewrite Z.eqb_refl
    | match goal with
      | H : ?b = _ |- context [if ?b then _ else _] => rewrite H
      | |- context [?x =? ?y] => rewrite (eqb_neq_false x y) by lia
      end ].

Ltac js_cases := js_red; repeat (eqb_decide; js_red); try reflexivity.

Lemma startDictation_started (env : StartEnv) (w : World) :
  Idle w -> Mounted w -> succeeds env = true ->
  startDictation env w = (Normal tt, started env w).
Proof.
  intros [Hd Hc Hs Ht Hf Htm Hfr Hls Hoc Hrc] [(r & Hr & Hlt) Hnh] Hok.
  destruct w as [d r0 c s st af clk nh tm fr ls oc rc al co di].
  cbn in Hd, Hc, Hs, Ht, Hf, Htm, Hfr, Hls, Hoc, Hrc, Hr, Hlt, Hnh; subst.
  destruct env as [g a b k ff]. unfold succeeds in Hok; cbn in Hok.
  repeat (apply andb_prop in Hok; destruct Hok as [Hok ?]); subst.
  unfold started;
    cbn [nextHandle firstFrame recognitionRef clock alerts console dictated].
  destruct (isSpeaking ff) eqn:E; js_cases.
Qed.

Lemma started_Listening (env : StartEnv) (w : World) :
  Mounted w -> Listening (started env w).
Proof.
  intros [(r & Hr & Hlt) Hnh]. unfold started.
  split; cbn -[isSpeaking Z.add].
  - reflexivity.
  - exists r. rewrite Hr. repeat split. destruct (isSpeaking _); lia.
  - eexists; repeat split. destruct (isSpeaking _); lia.
  - eexists; repeat split. destruct (isSpeaking _); lia.
  - eexists; repeat split; destruct (isSpeaking _); lia.
  - destruct (isSpeaking _); [left; now split|right].
    do 2 eexists. repeat split; unfold SILENCE_DURATION_MS; lia.
  - destruct (isSpeaking _); lia.
Qed.

(** A failed start, from an idle mounted component: the notification is
    raised, the stop path has run, and only the host's handle supply and
    the two logs differ from the world before. *)
Lemma startDictation_failed (env : StartEnv) (w : World) :
  Idle w -> Mounted w -> succeeds env = false ->
  exists nh',
    nextHandle w <= nh' /\
    startDictation env w =
      (Normal tt,
       set_nextHandle nh'
         (set_alerts (alerts w ++ [startAlert])
            (set_console (console w ++ ["Error starting dictation:"%string]) w))).
Proof.
  intros [Hd Hc Hs Ht Hf Htm Hfr Hls Hoc Hrc] [(r & Hr & Hlt) Hnh] Hok.
  destruct w as [d r0 c s st af clk nh tm fr ls oc rc al co di].
  cbn in Hd, Hc, Hs, Ht, Hf, Htm, Hfr, Hls, Hoc, Hrc, Hr, Hlt, Hnh; subst.
  destruct env as [g a b k ff]. unfold succeeds in Hok; cbn in Hok.
  unfold startAlert.
  destruct g; [destruct a; [destruct b; [destruct k; [discriminate|] | ] | ] | ].
  - destruct (isSpeaking ff) eqn:E.
    + exists (nh + 1 + 1 + 1). split; [cbn; lia|].
      js_cases.
    + exists (nh + 1 + 1 + 1 + 1). split; [cbn; lia|].
      js_cases.
  - exists (nh + 1 + 1). split; [cbn; lia|]. js_cases.
  - exists (nh + 1). split; [cbn; lia|]. js_cases.
  - exists nh. split; [cbn; lia|]. js_cases.
Qed.

(** C7. A start that fails at any acquisition step (microphone refused,
    audio context or analysis graph not constructed, recognizer not
    started) returns normally, raises the user-facing notification once,
    and leaves the session idle: not dictating, no handle held, nothing
    pending or live on the host.  A later start whose acquisition
    succeeds gives an active session. *)
Theorem startDictation_failure_cleans_up :
  forall env w, Idle w -> Mounted w -> succeeds env = false ->
    let w' := exec (startDictation env) w in
    fst (startDictation env w) = Normal tt /\
    alerts w' = alerts w ++ [startAlert] /\
    isDictating w' = false /\
    Idle w' /\ Mounted w' /\
    forall env', succeeds env' = true ->
      fst (startDictation env' w') = Normal tt /\
      Listening (exec (startDictation env') w').
Proof.
  intros env w HI HM Hfail. cbv zeta. unfold exec.
  destruct (startDictation_failed env w HI HM Hfail) as (nh' & Hle & E).
  rewrite E. cbn [fst snd].
  destruct HI as [Hd Hc Hs Ht Hf Htm Hfr Hls Hoc Hrc].
  destruct HM as [(r & Hr & Hlt) Hnh].
  assert (HI' : Idle (set_nextHandle nh'
            (set_alerts (alerts w ++ [startAlert])
               (set_console (console w ++ ["Error starting dictation:"%string]) w))))
    by (split; assumption).
  assert (HM' : Mounted (set_nextHandle nh'
            (set_alerts (alerts w ++ [startAlert])
               (set_console (console w ++ ["Error starting dictation:"%string]) w)))).
  { split; [exists r; split; [exact Hr|cbn; lia] | cbn; lia]. }
  split; [reflexivity|]. split; [reflexivity|]. split; [exact Hd|].
  split; [exact HI'|]. split; [exact HM'|].
  intros env' Hok.
  rewrite (startDictation_started _ _ HI' HM' Hok). cbn [fst snd].
  split; [reflexivity|]. apply started_Listening; exact HM'.
Qed.

Lemma Listening_released_Mounted (w : World) :
  Listening w -> Mounted (released w).
Proof.
  intros [_ (r & Hr & _ & Hlt) _ _ _ _ Hnh].
  split; [exists r; split; [exact Hr|exact Hlt]|exact Hnh].
Qed.

(** C8, as the code has it.  The stop path nulls the four handles of the
    session (media stream, audio context, silence timer, animation
    frame) as it releases them, and a session started after the stop
    holds new ones, different from those of the session stopped.  The
    recognizer handle is the exception: the stop path does not null it,
    and a session started directly after the stop reuses it. *)
Theorem stopDictation_nulls_session_handles :
  forall w, Listening w ->
    let w1 := exec stopDictation w in
    streamRef w1 = None /\ audioContextRef w1 = None /\
    silenceTimerRef w1 = None /\ animationFrameRef w1 = None /\
    recognitionRef w1 = recognitionRef w /\ recognitionRef w1 <> None /\
    forall env, succeeds env = true ->
      let w2 := exec (startDictation env) w1 in
      Listening w2 /\
      recognitionRef w2 = recognitionRef w /\
      streamRef w2 <> streamRef w /\
      audioContextRef w2 <> audioContextRef w /\
      animationFrameRef w2 <> animationFrameRef w /\
      (silenceTimerRef w2 = None \/ silenceTimerRef w2 <> silenceTimerRef w).
Proof.
  intros w L. cbv zeta. unfold exec.
  rewrite (stopDictation_released w (Listening_releasable w L)). cbn [fst snd].
  pose proof (Listening_released_Idle w L) as HI.
  pose proof (Listening_released_Mounted w L) as HM.
  destruct L as [_ (r & Hr & _ & Hrlt) (s & Hs & _ & Hslt) (c & Hc & _ & Hclt)
                   (f & Hf & _ & _ & Hflt) Ht Hnh].
  repeat (split; [reflexivity|]).
  split; [cbn; rewrite Hr; discriminate|].
  intros env Hok.
  rewrite (startDictation_started _ _ HI HM Hok). cbn [snd].
  split; [apply started_Listening; exact HM|].
  unfold started, released; cbn -[isSpeaking Z.add].
  split; [reflexivity|].
  split; [rewrite Hs; intros E; inversion E; lia|].
  split; [rewrite Hc; intros E; inversion E; lia|].
  split; [rewrite Hf; destruct (isSpeaking _); intros E; inversion E; lia|].
  destruct (isSpeaking _); [left; reflexivity|right].
  destruct Ht as [[Hn _]|(t & d & Hst & _ & _ & Htlt & _)];
    [rewrite Hn; discriminate|].
  rewrite Hst. intros E; inversion E; lia.
Qed.

(* ================================================================== *)
(** ** The monitoring loop on simulated time *)

Ltac loop_red :=
  cbv beta iota zeta delta
    [tick advance fireTimers animationFrame runFrameCallback
     find fold_left length released without timersWithout];
  js_red.

Ltac leb_decide :=
  match goal with
  | |- context [?x <=? ?y] =>
      first [ rewrite (proj2 (Z.leb_le x y)) by lia
            | rewrite (proj2 (Z.leb_gt x y)) by lia ]
  end.

Ltac loop_cases :=
  loop_red; repeat (first [eqb_decide | leb_decide]; loop_red);
  try reflexivity.

(** Split an active world into its fields. *)
Ltac listening_fields w L :=
  let Hd := fresh "Hd" in
  destruct L as [Hd (?r & ?Hr & ?Hrc & ?Hrlt) (?s & ?Hs & ?Hls & ?Hslt)
                    (?c & ?Hc & ?Hoc & ?Hclt)
                    (?f & ?Hf & ?Hfr & ?Hf0 & ?Hflt) ?Ht ?Hnh];
  destruct w as [?d ?r0 ?c0 ?s0 ?st ?af ?clk ?nh ?tm ?fr ?ls ?oc ?rc ?al ?co ?di];
  cbn [isDictating recognitionRef audioContextRef streamRef silenceTimerRef
       animationFrameRef clock nextHandle timers frames liveStreams
       openContexts recognizing] in *;
  subst.

Lemma animationFrame_monitored (dataArray : list Z) (w : World) :
  Listening w -> animationFrame dataArray w = monitored dataArray w.
Proof.
  intros L. listening_fields w L. unfold monitored.
  destruct (isSpeaking dataArray) eqn:E;
    destruct Ht as [[Hn Htm]|(t & d & Hst & Htm & Ht0 & Htlt & Hd')];
    cbn [silenceTimerRef timers clock nextHandle] in *; subst;
    loop_cases.
Qed.

Lemma monitored_Listening (dataArray : list Z) (w : World) :
  Listening w -> Listening (monitored dataArray w).
Proof.
  intros L. listening_fields w L. unfold monitored.
  cbn [nextHandle timers clock].
  destruct (isSpeaking dataArray);
    [|destruct Ht as [[Hn Htm]|(t & d & Hst & Htm & Ht0 & Htlt & Hd')];
      cbn [silenceTimerRef timers clock nextHandle] in *; subst].
  all: split; cbn;
    try reflexivity;
    try (eexists; repeat split; lia);
    try lia.
  - left. now split.
  - right. do 2 eexists. repeat split; unfold SILENCE_DURATION_MS; lia.
  - right. do 2 eexists. repeat split; lia.
Qed.

Lemma Listening_set_clock (t : Z) (w : World) :
  Listening w -> clock w <= t -> Listening (set_clock t w).
Proof.
  intros [Hd Hr Hs Hc Hf Ht Hnh] Hle. split; try assumption.
  destruct Ht as [Ht|(id & d & Hst & Htm & Ht0 & Htlt & Hd')]; [now left|right].
  exists id, d. repeat split; try assumption. cbn. lia.
Qed.

Lemma Idle_set_clock (t : Z) (w : World) : Idle w -> Idle (set_clock t w).
Proof. intros [? ? ? ? ? ? ? ? ? ?]. split; assumption. Qed.

(** No timeout is due at [t]: time just passes. *)
Lemma advance_pending (t : Z) (w : World) :
  Listening w -> (forall id d, In (id, d) (timers w) -> t < d) ->
  advance t w = set_clock (Z.max (clock w) t) w.
Proof.
  intros L Hp. listening_fields w L.
  destruct Ht as [[Hn Htm]|(id & d & Hst & Htm & Ht0 & Htlt & Hd')];
    cbn [silenceTimerRef timers clock nextHandle] in *; subst.
  - loop_cases.
  - specialize (Hp id d (or_introl eq_refl)). loop_cases.
Qed.

(** The silence timeout is due at [t]: it fires, and its callback stops
    the session. *)
Lemma advance_fires (t id d : Z) (w : World) :
  Listening w -> timers w = [(id, d)] -> d <= t ->
  advance t w = set_clock (Z.max (Z.max (clock w) d) t) (released w).
Proof.
  intros L Htm' Hdue. listening_fields w L.
  destruct Ht as [[Hn Htm]|(id' & d' & Hst & Htm & Ht0 & Htlt & Hd')];
    cbn [silenceTimerRef timers clock nextHandle] in *;
    [discriminate|].
  inversion Htm; subst. loop_cases.
Qed.

Lemma animationFrame_Idle (dataArray : list Z) (w : World) :
  Idle w -> animationFrame dataArray w = w.
Proof.
  intros HI. unfold animationFrame. now rewrite (I_frames w HI).
Qed.

Lemma advance_Idle (t : Z) (w : World) :
  Idle w -> advance t w = set_clock (Z.max (clock w) t) w.
Proof.
  intros HI. unfold advance. now rewrite (I_timers w HI).
Qed.

Lemma tick_Idle (tk : Z * list Z) (w : World) :
  Idle w -> tick tk w = set_clock (Z.max (clock w) (fst tk)) w.
Proof.
  intros HI. unfold tick. rewrite (advance_Idle _ _ HI).
  apply animationFrame_Idle, Idle_set_clock, HI.
Qed.

Lemma tick_pending (tk : Z * list Z) (w : World) :
  Listening w -> (forall id d, In (id, d) (timers w) -> fst tk < d) ->
  tick tk w = monitored (snd tk) (set_clock (Z.max (clock w) (fst tk)) w).
Proof.
  intros L Hp. unfold tick. rewrite (advance_pending _ _ L Hp).
  apply animationFrame_monitored, Listening_set_clock; [exact L|lia].
Qed.

Lemma tick_fires (tk : Z * list Z) (id d : Z) (w : World) :
  Listening w -> timers w = [(id, d)] -> d <= fst tk ->
  tick tk w = set_clock (Z.max (Z.max (clock w) d) (fst tk)) (released w).
Proof.
  intros L Htm Hdue. unfold tick. rewrite (advance_fires _ id d _ L Htm Hdue).
  apply animationFrame_Idle, Idle_set_clock, Listening_released_Idle, L.
Qed.

Lemma Listening_timers (w : World) :
  Listening w ->
  timers w = [] \/ exists id d, timers w = [(id, d)] /\ silenceTimerRef w = Some id.
Proof.
  intros [_ _ _ _ _ [[_ H]|(t & d & Hs & H & _)] _]; [now left|right].
  now exists t, d.
Qed.

Lemma advance_Session (t : Z) (w : World) :
  Session w -> Session (advance t w).
Proof.
  intros [L|HI].
  - destruct (Listening_timers w L) as [E|(id & d & E & _)].
    + left. rewrite advance_pending; [|exact L|rewrite E; intros ? ? []].
      apply Listening_set_clock; [exact L|lia].
    + destruct (Z_le_gt_dec d t) as [Hdue|Hnot].
      * right. rewrite (advance_fires _ id d _ L E Hdue).
        apply Idle_set_clock, Listening_released_Idle, L.
      * left. rewrite advance_pending; [apply Listening_set_clock; [exact L|lia]|exact L|].
        rewrite E. intros id' d' [H|[]]. inversion H; subst. lia.
  - right. rewrite (advance_Idle _ _ HI). apply Idle_set_clock, HI.
Qed.

Lemma animationFrame_Session (dataArray : list Z) (w : World) :
  Session w -> Session (animationFrame dataArray w).
Proof.
  intros [L|HI].
  - left. rewrite (animationFrame_monitored _ _ L). now apply monitored_Listening.
  - right. now rewrite (animationFrame_Idle _ _ HI).
Qed.

Lemma tick_Session (tk : Z * list Z) (w : World) :
  Session w -> Session (tick tk w).
Proof. intros S. apply animationFrame_Session, advance_Session, S. Qed.

Lemma run_Session (ticks : list (Z * list Z)) (w : World) :
  Session w -> Session (run ticks w).
Proof.
  revert w. induction ticks as [|tk rest IH]; intros w S; cbn; [exact S|].
  apply IH, tick_Session, S.
Qed.

Lemma Session_timers (w : World) : Session w -> (length (timers w) <= 1)%nat.
Proof.
  intros [L|HI].
  - destruct (Listening_timers w L) as [E|(id & d & E & _)]; rewrite E; cbn; lia.
  - rewrite (I_timers w HI). cbn; lia.
Qed.

Lemma history_Session (ticks : list (Z * list Z)) (w : World) :
  Session w -> Forall Session (history ticks w).
Proof.
  revert w. induction ticks as [|tk rest IH]; intros w S; cbn; constructor.
  - apply tick_Session, S.
  - apply IH, tick_Session, S.
Qed.

Lemma animationFrame_timer (dataArray : list Z) (w : World) :
  Session w ->
  let w' := animationFrame dataArray w in
  (isSpeaking dataArray = true -> timers w' = [] /\ silenceTimerRef w' = None) /\
  (forall e, In e (timers w') -> ~ In e (timers w) -> timers w = []).
Proof.
  intros [L|HI]; cbv zeta.
  - rewrite (animationFrame_monitored _ _ L). unfold monitored.
    destruct (isSpeaking dataArray).
    + split; [intros _; now split|]. intros e [].
    + split; [discriminate|].
      destruct (timers w) as [|p l] eqn:E; [reflexivity|].
      cbn [timers set_animationFrameRef set_frames set_nextHandle].
      rewrite E. intros e Hin Hnot. contradiction.
  - rewrite (animationFrame_Idle _ _ HI).
    split; [intros _; split; [apply I_timers|apply I_timer]; exact HI|].
    intros e Hin Hnot. contradiction.
Qed.

(** C2. Whatever samples the monitoring loop has processed, at most one
    silence timer is pending after every tick and at the moment the next
    sample is processed; a sample above the threshold leaves no timer
    pending (and the slot cleared) before the sample after it; and a
    timer that a sample arms is armed with none pending. *)
Theorem single_pending_timer :
  forall ticks w0, Listening w0 ->
    Forall (fun w => (length (timers w) <= 1)%nat) (history ticks w0) /\
    forall tk,
      let before := advance (fst tk) (run ticks w0) in
      let after := tick tk (run ticks w0) in
      (length (timers before) <= 1)%nat /\
      (length (timers after) <= 1)%nat /\
      (isSpeaking (snd tk) = true ->
         timers after = [] /\ silenceTimerRef after = None) /\
      (forall e, In e (timers after) -> ~ In e (timers before) ->
         timers before = []).
Proof.
  intros ticks w0 L. split.
  - eapply Forall_impl; [|apply history_Session; left; exact L].
    intros w. apply Session_timers.
  - intros tk. cbv zeta.
    assert (S : Session (advance (fst tk) (run ticks w0)))
      by (apply advance_Session, run_Session; left; exact L).
    split; [apply Session_timers, S|].
    split; [apply Session_timers, animationFrame_Session, S|].
    exact (animationFrame_timer (snd tk) _ S).
Qed.

(* ------------------------------------------------------------------ *)
(** *** Sustained silence *)

Lemma history_app (l1 l2 : list (Z * list Z)) (w : World) :
  history (l1 ++ l2) w = history l1 w ++ history l2 (run l1 w).
Proof.
  revert w. induction l1 as [|tk l1 IH]; intros w; cbn; [reflexivity|].
  now rewrite IH.
Qed.

Lemma run_app (l1 l2 : list (Z * list Z)) (w : World) :
  run (l1 ++ l2) w = run l2 (run l1 w).
Proof.
  revert w. induction l1 as [|tk l1 IH]; intros w; cbn; [reflexivity|].
  now rewrite IH.
Qed.

Lemma history_length (l : list (Z * list Z)) (w : World) :
  length (history l w) = length l.
Proof.
  revert w. induction l as [|tk l IH]; intros w; cbn; [reflexivity|].
  now rewrite IH.
Qed.

Lemma tick_Idle_Idle (tk : Z * list Z) (w : World) : Idle w -> Idle (tick tk w).
Proof. intros HI. rewrite (tick_Idle _ _ HI). apply Idle_set_clock, HI. Qed.

Lemma run_Idle (ticks : list (Z * list Z)) (w : World) :
  Idle w -> Idle (run ticks w).
Proof.
  revert w. induction ticks as [|tk rest IH]; intros w HI; cbn; [exact HI|].
  apply IH, tick_Idle_Idle, HI.
Qed.

Lemma history_Idle (ticks : list (Z * list Z)) (w : World) :
  Idle w -> Forall Idle (history ticks w).
Proof.
  revert w. induction ticks as [|tk rest IH]; intros w HI; cbn; constructor.
  - apply tick_Idle_Idle, HI.
  - apply IH, tick_Idle_Idle, HI.
Qed.

Lemma tick_quiet_pending (tk : Z * list Z) (w : World) :
  Listening w -> quiet tk -> clock w <= fst tk ->
  (forall id d, In (id, d) (timers w) -> fst tk < d) ->
  let w' := tick tk w in
  Listening w' /\ clock w' = fst tk /\
  exists id, timers w' = [(id, deadline w (fst tk))] /\
             silenceTimerRef w' = Some id.
Proof.
  intros L Hq Hclk Hp. cbv zeta.
  rewrite (tick_pending _ _ L Hp).
  assert (L' : Listening (set_clock (Z.max (clock w) (fst tk)) w))
    by (apply Listening_set_clock; [exact L|lia]).
  split; [apply monitored_Listening, L'|].
  unfold monitored, deadline. unfold quiet in Hq. rewrite Hq.
  destruct (Listening_timers w L) as [E|(id & d & E & Hs)];
    cbn [timers set_clock]; rewrite E; cbn.
  - split; [lia|]. eexists. split; [|reflexivity].
    replace (Z.max (clock w) (fst tk)) with (fst tk) by lia. reflexivity.
  - split; [lia|]. exists id. now split.
Qed.

Lemma last_default (A : Type) (a : A) (l : list A) (d d' : A) :
  last (a :: l) d = last (a :: l) d'.
Proof.
  revert a. induction l as [|b l IH]; intros a; [reflexivity|].
  change (last (b :: l) d = last (b :: l) d'). apply IH.
Qed.

Lemma Listening_deadline (w : World) (t : Z) :
  Listening w -> clock w <= t -> deadline w t <= t + SILENCE_DURATION_MS.
Proof.
  intros [_ _ _ _ _ [[_ E]|(id & d & _ & E & _ & _ & Hd)] _] Hle;
    unfold deadline; rewrite E; lia.
Qed.

(** Quiet samples up to the deadline of the silence timer: the timer
    fires at the first tick that reaches the deadline. *)
Lemma quiet_run (rest : list (Z * list Z)) :
  forall tk1 w,
    Listening w ->
    ascending (clock w :: map fst (tk1 :: rest)) ->
    Forall quiet (tk1 :: rest) ->
    deadline w (fst tk1) <= fst (last (tk1 :: rest) tk1) ->
    exists pre tk post,
      tk1 :: rest = pre ++ tk :: post /\
      Forall Listening (history pre w) /\
      Listening (run pre w) /\
      (exists id d, timers (run pre w) = [(id, d)] /\
                    silenceTimerRef (run pre w) = Some id /\ d <= fst tk).
Proof.
  induction rest as [|tk2 rest IH]; intros tk1 w L Hasc Hq Hdl.
  - exists [], tk1, []. cbn in Hdl |- *.
    split; [reflexivity|]. split; [constructor|]. split; [exact L|].
    destruct (Listening_timers w L) as [E|(id & d & E & Hs)];
      unfold deadline in Hdl; rewrite E in Hdl.
    + unfold SILENCE_DURATION_MS in Hdl. lia.
    + exists id, d. now repeat split.
  - assert (Hfire : (exists id d, timers w = [(id, d)] /\
                       silenceTimerRef w = Some id /\ d <= fst tk1) \/
                    (forall id d, In (id, d) (timers w) -> fst tk1 < d)).
    { destruct (Listening_timers w L) as [E|(id & d & E & Hs)].
      - right. rewrite E. intros ? ? [].
      - destruct (Z_le_gt_dec d (fst tk1)) as [Hdue|Hnot].
        + left. now exists id, d.
        + right. rewrite E. intros id' d' [H|[]]. inversion H; subst. lia. }
    destruct Hfire as [Hdue|Hp].
    + exists [], tk1, (tk2 :: rest). cbn.
      split; [reflexivity|]. split; [constructor|]. split; [exact L|exact Hdue].
    + cbn [ascending map] in Hasc. destruct Hasc as (Hclk & H12 & Hasc).
      inversion Hq as [|? ? Hq1 Hq']; subst.
      destruct (tick_quiet_pending tk1 w L Hq1 Hclk Hp)
        as (L' & Hclk' & id' & Htm' & Hs').
      destruct (IH tk2 (tick tk1 w) L') as (pre & tk & post & E & HL & HLr & Hd).
      * cbn [ascending map]. rewrite Hclk'. split; [exact H12|exact Hasc].
      * exact Hq'.
      * unfold deadline at 1. rewrite Htm'.
        rewrite (last_default _ tk2 rest tk2 tk1).
        exact Hdl.
      * exists (tk1 :: pre), tk, post. cbn.
        split; [now rewrite E|]. split; [constructor; assumption|].
        split; assumption.
Qed.

Lemma Listening_dictating (l : list World) :
  Forall Listening l -> map isDictating l = repeat true (length l).
Proof.
  induction 1 as [|w l L _ IH]; cbn; [reflexivity|].
  now rewrite IH, (L_dictating w L).
Qed.

Lemma Idle_dictating (l : list World) :
  Forall Idle l -> map isDictating l = repeat false (length l).
Proof.
  induction 1 as [|w l HI _ IH]; cbn; [reflexivity|].
  now rewrite IH, (I_dictating w HI).
Qed.

(** C5. Samples that stay at or below the threshold over at least
    [SILENCE_DURATION_MS] of tick time: at one tick of the sequence the
    armed silence timer is due and fires; the session is active at every
    tick before it and idle from it on, so it goes from dictating to idle
    exactly once; afterwards no animation frame is scheduled, whatever
    ticks follow. *)
Theorem silence_triggers_stop :
  forall ticks w0,
    Listening w0 ->
    ascending (clock w0 :: map fst ticks) ->
    Forall quiet ticks ->
    SILENCE_DURATION_MS <= span ticks ->
    exists pre tk post,
      ticks = pre ++ tk :: post /\
      Forall Listening (history pre w0) /\
      (exists id d, timers (run pre w0) = [(id, d)] /\
                    silenceTimerRef (run pre w0) = Some id /\ d <= fst tk) /\
      Forall Idle (history (tk :: post) (run pre w0)) /\
      map isDictating (history ticks w0) =
        repeat true (length pre) ++ repeat false (S (length post)) /\
      forall more,
        let w := run more (run ticks w0) in
        Idle w /\ frames w = [] /\ animationFrameRef w = None.
Proof.
  intros ticks w0 L Hasc Hq Hspan.
  destruct ticks as [|tk1 rest];
    [unfold span, SILENCE_DURATION_MS in Hspan; lia|].
  assert (Hdl : deadline w0 (fst tk1) <= fst (last (tk1 :: rest) tk1)).
  { pose proof (Listening_deadline w0 (fst tk1) L) as H.
    cbn [ascending map] in Hasc. unfold span in Hspan. lia. }
  destruct (quiet_run rest tk1 w0 L Hasc Hq Hdl)
    as (pre & tk & post & E & HL & HLr & (id & d & Htm & Hs & Hdue)).
  assert (HI : Idle (tick tk (run pre w0))).
  { rewrite (tick_fires tk id d _ HLr Htm Hdue).
    apply Idle_set_clock, Listening_released_Idle, HLr. }
  assert (HIs : Forall Idle (history (tk :: post) (run pre w0))).
  { cbn. constructor; [exact HI|apply history_Idle, HI]. }
  exists pre, tk, post.
  split; [exact E|]. split; [exact HL|].
  split; [now exists id, d|]. split; [exact HIs|]. split.
  - rewrite E, history_app, map_app.
    rewrite (Listening_dictating _ HL), (Idle_dictating _ HIs).
    now rewrite !history_length.
  - intros more. cbv zeta.
    assert (HIr : Idle (run more (run (tk1 :: rest) w0))).
    { rewrite E, run_app. cbn [run]. apply run_Idle, run_Idle, HI. }
    split; [exact HIr|]. split; [apply I_frames|apply I_frame]; exact HIr.
Qed.

(* ------------------------------------------------------------------ *)
(** *** Alternating speech and silence *)

Lemma window_bounds (x : Z) : 1000 * (x / 1000) <= x < 1000 * (x / 1000) + 1000.
Proof.
  pose proof (Z_div_mod_eq_full x 1000).
  pose proof (Z.mod_pos_bound x 1000 ltac:(lia)). lia.
Qed.

Lemma window_next (a b : Z) :
  a <= b <= a + 1000 -> b / 1000 = a / 1000 \/ b / 1000 = a / 1000 + 1.
Proof.
  intros H. pose proof (window_bounds a). pose proof (window_bounds b). lia.
Qed.

Lemma speakingAt_next (phase : bool) (origin a b : Z) :
  (b - origin) / 1000 = (a - origin) / 1000 + 1 ->
  speakingAt phase origin b = negb (speakingAt phase origin a).
Proof.
  intros E. unfold speakingAt. rewrite E.
  replace ((a - origin) / 1000 + 1) with (Z.succ ((a - origin) / 1000)) by lia.
  rewrite Z.even_succ, <- Z.negb_even.
  destruct phase, (Z.even ((a - origin) / 1000)); reflexivity.
Qed.

Lemma tick_speaking_pending (tk : Z * list Z) (w : World) :
  Listening w -> isSpeaking (snd tk) = true -> clock w <= fst tk ->
  (forall id d, In (id, d) (timers w) -> fst tk < d) ->
  let w' := tick tk w in
  Listening w' /\ clock w' = fst tk /\ timers w' = [].
Proof.
  intros L Hsp Hclk Hp. cbv zeta.
  rewrite (tick_pending _ _ L Hp).
  assert (L' : Listening (set_clock (Z.max (clock w) (fst tk)) w))
    by (apply Listening_set_clock; [exact L|lia]).
  split; [apply monitored_Listening, L'|].
  unfold monitored. rewrite Hsp. cbn. split; [lia|reflexivity].
Qed.

(** One tick of an alternating sequence: the pending timer, if any, is
    not due; the session stays active. *)
Lemma tick_alternating (phase : bool) (origin : Z) (tk : Z * list Z) (w : World) :
  Listening w -> armedInWindow phase origin w ->
  clock w <= fst tk <= clock w + 1000 ->
  alternating phase origin tk ->
  let w' := tick tk w in
  Listening w' /\ clock w' = fst tk /\ armedInWindow phase origin w' /\
  (isSpeaking (snd tk) = true -> timers w' = []) /\
  (forall id d, In (id, d) (timers w') -> fst tk < d).
Proof.
  intros L Harm Hpace Halt. cbv zeta.
  pose proof (window_bounds (clock w - origin)) as Ha.
  pose proof (window_bounds (fst tk - origin)) as Hb.
  assert (Hp : forall id d, In (id, d) (timers w) -> fst tk < d).
  { intros id d Hin. destruct (Harm id d Hin) as [_ Hd].
    unfold SILENCE_DURATION_MS in Hd. lia. }
  unfold alternating in Halt.
  destruct (isSpeaking (snd tk)) eqn:Hsp.
  - destruct (tick_speaking_pending tk w L Hsp (proj1 Hpace) Hp)
      as (L' & Hclk' & Htm').
    split; [exact L'|]. split; [exact Hclk'|].
    unfold armedInWindow. rewrite Htm'.
    split; [intros ? ? []|]. split; [reflexivity|intros ? ? []].
  - destruct (tick_quiet_pending tk w L Hsp (proj1 Hpace) Hp)
      as (L' & Hclk' & id' & Htm' & _).
    split; [exact L'|]. split; [exact Hclk'|].
    assert (Hd' : speakingAt phase origin (fst tk) = false /\
                  1000 * ((fst tk - origin) / 1000) + origin + SILENCE_DURATION_MS
                    <= deadline w (fst tk) /\
                  fst tk < deadline w (fst tk)).
    { split; [now rewrite <- Halt|].
      unfold deadline.
      destruct (timers w) as [|[id d] l] eqn:E;
        [unfold SILENCE_DURATION_MS; lia|].
      assert (Hin : In (id, d) (timers w)) by (rewrite E; now left).
      destruct (Harm id d Hin) as [Hquiet Hd].
      split; [|apply (Hp id d); now left].
      destruct (window_next (clock w - origin) (fst tk - origin)) as [Hsame|Hnext];
        [lia|rewrite Hsame; exact Hd|].
      rewrite (speakingAt_next phase origin (clock w) (fst tk) Hnext),
        Hquiet in Halt.
      discriminate. }
    destruct Hd' as (Hq & Hwin & Hlt).
    unfold armedInWindow. rewrite Htm', Hclk'.
    split; [|split; [discriminate|]].
    + intros id d [H|[]]. inversion H; subst. now split.
    + intros id d [H|[]]. inversion H; subst. exact Hlt.
Qed.

Lemma run_alternating (phase : bool) (origin : Z) (ticks : list (Z * list Z)) :
  forall w,
    Listening w -> armedInWindow phase origin w ->
    paced (clock w :: map fst ticks) ->
    Forall (alternating phase origin) ticks ->
    Forall2 (fun tk w' =>
               Listening w' /\ clock w' = fst tk /\
               (isSpeaking (snd tk) = true -> timers w' = []) /\
               (forall id d, In (id, d) (timers w') -> fst tk < d))
            ticks (history ticks w) /\
    Listening (run ticks w).
Proof.
  induction ticks as [|tk rest IH]; intros w L Harm Hpace Halt; cbn [history run].
  - split; [constructor|exact L].
  - cbn [paced map] in Hpace. destruct Hpace as [Hstep Hpace].
    inversion Halt as [|? ? Halt1 Halt']; subst.
    destruct (tick_alternating phase origin tk w L Harm Hstep Halt1)
      as (L' & Hclk' & Harm' & Hclear & Hlt).
    destruct (IH (tick tk w) L' Harm') as [HF HL].
    + cbn [paced map]. rewrite Hclk'. exact Hpace.
    + exact Halt'.
    + split; [constructor; [|exact HF]|exact HL].
      split; [exact L'|]. split; [exact Hclk'|]. split; [exact Hclear|exact Hlt].
Qed.

(** C6. A session fed with samples that alternate above and below the
    threshold every 1000 ms, ticks at most 1000 ms apart, for any number
    of ticks: the session is active after every tick, a sample above the
    threshold leaves no timer pending, and a pending timer is never due. *)
Theorem speech_resets_timer :
  forall phase origin env w ticks,
    Idle w -> Mounted w -> succeeds env = true ->
    isSpeaking (firstFrame env) = speakingAt phase origin (clock w) ->
    paced (clock w :: map fst ticks) ->
    Forall (alternating phase origin) ticks ->
    let w0 := exec (startDictation env) w in
    Forall2 (fun tk w' =>
               Listening w' /\ clock w' = fst tk /\
               (isSpeaking (snd tk) = true -> timers w' = []) /\
               (forall id d, In (id, d) (timers w') -> fst tk < d))
            ticks (history ticks w0) /\
    Listening (run ticks w0) /\
    isDictating (run ticks w0) = true.
Proof.
  intros phase origin env w ticks HI HM Hok Hfirst Hpace Halt. cbv zeta.
  unfold exec. rewrite (startDictation_started env w HI HM Hok). cbn [snd].
  assert (L0 : Listening (started env w)) by (apply started_Listening, HM).
  assert (Harm : armedInWindow phase origin (started env w)).
  { unfold armedInWindow, started. cbn [timers clock].
    destruct (isSpeaking (firstFrame env)); [intros ? ? []|].
    intros id d [H|[]]. inversion H; subst.
    split; [now rewrite <- Hfirst|].
    pose proof (window_bounds (clock w - origin)). lia. }
  destruct (run_alternating phase origin ticks (started env w) L0 Harm Hpace Halt)
    as [HF HL].
  split; [exact HF|]. split; [exact HL|apply L_dictating, HL].
Qed.

(* ================================================================== *)
(** ** The recognition result handler *)

Lemma skipn_nth_error (A : Type) (l : list A) (i : nat) (x : A) :
  nth_error l i = Some x -> skipn i l = x :: skipn (S i) l.
Proof.
  revert i. induction l as [|a l IH]; intros [|i] H; cbn in *;
    try discriminate.
  - now inversion H.
  - now apply IH.
Qed.

Lemma scanResults_spec (n : nat) :
  forall rs i acc,
    (length rs - i = n)%nat ->
    Forall (fun r => isFinal r = true -> alternatives r <> []) (skipn i rs) ->
    scanResults rs i n acc =
      Normal (acc ++ concat (map topTranscript (filter isFinal (skipn i rs)))).
Proof.
  induction n as [|n IH]; intros rs i acc Hlen Hwf; cbn [scanResults].
  - rewrite skipn_all2 by lia. cbn. now rewrite app_nil_r.
  - destruct (nth_error rs i) as [r|] eqn:E;
      [|apply nth_error_None in E; lia].
    rewrite (skipn_nth_error _ _ _ _ E) in Hwf |- *.
    inversion Hwf as [|? ? Hr Hwf']; subst. cbn [filter].
    destruct (isFinal r) eqn:Hfin.
    + destruct (alternatives r) as [|a l] eqn:Ha; [now elim (Hr eq_refl)|].
      assert (Htop : topTranscript r = transcript a)
        by (unfold topTranscript; now rewrite Ha).
      cbn [nth_error map concat].
      rewrite (IH rs (S i) _ ltac:(lia) Hwf'), Htop.
      now rewrite app_assoc.
    + apply IH; [lia|exact Hwf'].
Qed.

Lemma onresult_finalText (event : SpeechRecognitionEvent) (w : World) :
  wellFormed event ->
  onresult event w =
    (Normal tt,
     if truthy (finalText event)
     then set_dictated (dictated w ++ [trim (finalText event)]) w
     else w).
Proof.
  intros Hwf. unfold onresult.
  rewrite (scanResults_spec _ (results event) (resultIndex event) []
             eq_refl Hwf).
  cbn [app]. fold (finalText event).
  destruct (truthy (finalText event)); reflexivity.
Qed.

(** C3. On a recognition event the handler forwards the top
    transcripts of the final entries from [resultIndex] to the end of the
    result list, concatenated in result order and trimmed, in one call of
    [onDictation], when that concatenation is not empty; otherwise it
    makes no call.  Nothing else of the world changes. *)
Theorem onresult_forwards_final_transcripts :
  forall event w, wellFormed event ->
    fst (onresult event w) = Normal tt /\
    dictated (exec (onresult event) w) =
      dictated w ++
        (if truthy (finalText event) then [trim (finalText event)] else []) /\
    exec (onresult event) w =
      set_dictated (dictated (exec (onresult event) w)) w.
Proof.
  intros event w Hwf. unfold exec.
  rewrite (onresult_finalText event w Hwf). cbn [fst snd].
  split; [reflexivity|].
  destruct (truthy (finalText event)).
  - split; reflexivity.
  - rewrite app_nil_r. split; [reflexivity|]. now destruct w.
Qed.

(** C4, at a final transcript that is one space: the accumulated string
    is not empty, so the handler calls [onDictation], with the empty
    string that trimming leaves. *)
Theorem onresult_whitespace_forwards_empty :
  wellFormed whitespaceEvent /\
  finalText whitespaceEvent = of_string " " /\
  dictated (exec (onresult whitespaceEvent) init) = [ [] ].
Proof.
  split; [|split; reflexivity].
  repeat constructor. discriminate.
Qed.

Lemma trimStart_head (s : jsstring) :
  forall c r, trimStart s = c :: r -> isWhiteSpace c = false.
Proof.
  induction s as [|a s IH]; intros c r H; cbn in H; [discriminate|].
  destruct (isWhiteSpace a) eqn:E; [now apply (IH c r)|].
  now inversion H; subst.
Qed.

Lemma trimStart_suffix (s : jsstring) : exists ws, s = ws ++ trimStart s.
Proof.
  induction s as [|a s [ws IH]]; [now exists []|]. cbn.
  destruct (isWhiteSpace a); [|now exists []].
  exists (a :: ws). cbn. now rewrite <- IH.
Qed.

(** What the handler forwards has no white space at either end. *)
Lemma trim_trimmed (s : jsstring) : trimmed (trim s).
Proof.
  unfold trim, trimEnd. split; intros c r H.
  - destruct (trimStart_suffix (rev (trimStart s))) as [ws Hws].
    apply (f_equal (@rev N)) in Hws. rewrite rev_involutive, rev_app_distr in Hws.
    rewrite H in Hws. cbn in Hws.
    exact (trimStart_head s c (r ++ rev ws) Hws).
  - apply (f_equal (@rev N)) in H. rewrite rev_involutive, rev_app_distr in H.
    cbn in H. exact (trimStart_head _ c (rev r) H).
Qed.


(* ================================================================== *)
(** ** The theorems at concrete sessions *)

Lemma mounted_Idle : Idle mounted.
Proof. split; reflexivity. Qed.

Lemma mounted_Mounted : Mounted mounted.
Proof. split; [exists 1; split; reflexivity|reflexivity]. Qed.

Ltac listening_compute :=
  split; vm_compute;
  try reflexivity;
  try (eexists; repeat split; easy);
  try (left; split; reflexivity);
  try (right; do 2 eexists; repeat split; easy).

Lemma session_Listening : Listening session.
Proof. listening_compute. Qed.

Lemma speakingSession_Listening : Listening speakingSession.
Proof. listening_compute. Qed.

Lemma stopDictation_idempotent_witness :
  Listening session /\
  Idle (exec stopDictation session) /\
  stopDictation (exec stopDictation session) =
    (Normal tt, exec stopDictation session).
Proof.
  pose proof (stopDictation_idempotent session session_Listening) as H.
  cbv zeta in H.
  split; [exact session_Listening|]. split; apply H.
Defined.

Lemma startDictation_without_recognizer_witness :
  recognitionRef init = None /\
  startDictation (grantAll silentFrame) init = (Normal tt, init).
Proof.
  split; [reflexivity|].
  apply (startDictation_without_recognizer (grantAll silentFrame) init).
  reflexivity.
Defined.

Lemma startDictation_failure_cleans_up_witness :
  succeeds denyMicrophone = false /\
  alerts (exec (startDictation denyMicrophone) mounted) = [startAlert] /\
  Idle (exec (startDictation denyMicrophone) mounted) /\
  Listening (exec (startDictation (grantAll silentFrame))
               (exec (startDictation denyMicrophone) mounted)).
Proof.
  pose proof (startDictation_failure_cleans_up denyMicrophone mounted
                mounted_Idle mounted_Mounted eq_refl) as H.
  cbv zeta in H.
  destruct H as (_ & Ha & _ & HI & _ & Hnext).
  split; [reflexivity|]. split; [exact Ha|]. split; [exact HI|].
  apply (Hnext (grantAll silentFrame)). reflexivity.
Defined.

(** The recognizer handle is not nulled by the stop path, and the next
    session uses the same recognizer. *)
Lemma stopDictation_keeps_recognizer :
  Listening session /\
  ~ allHandlesNull (exec stopDictation session) /\
  recognitionRef (exec (startDictation (grantAll silentFrame))
                    (exec stopDictation session)) = recognitionRef session.
Proof.
  split; [exact session_Listening|].
  split; [|reflexivity].
  intros [H _]. vm_compute in H. discriminate H.
Qed.

Lemma stopDictation_nulls_session_handles_witness :
  Listening session /\
  streamRef (exec stopDictation session) = None /\
  audioContextRef (exec stopDictation session) = None /\
  silenceTimerRef (exec stopDictation session) = None /\
  animationFrameRef (exec stopDictation session) = None /\
  streamRef (exec (startDictation (grantAll silentFrame))
               (exec stopDictation session)) <> streamRef session.
Proof.
  pose proof (stopDictation_nulls_session_handles session session_Listening)
    as H.
  cbv zeta in H.
  destruct H as (Hs & Hc & Ht & Hf & _ & _ & Hnext).
  destruct (Hnext (grantAll silentFrame) eq_refl) as (_ & _ & Hfresh & _).
  split; [exact session_Listening|].
  repeat (split; [assumption|]). exact Hfresh.
Defined.

Lemma single_pending_timer_witness :
  Listening session /\
  Forall (fun w => (length (timers w) <= 1)%nat)
         (history alternatingTicks session) /\
  timers (tick (5000, loudFrame) (run alternatingTicks session)) = [].
Proof.
  pose proof (single_pending_timer alternatingTicks session session_Listening)
    as [HF Hnext].
  split; [exact session_Listening|]. split; [exact HF|].
  destruct (Hnext (5000, loudFrame)) as (_ & _ & Hclear & _).
  apply Hclear. reflexivity.
Defined.

Lemma run_nil (w : World) : run [] w = w.
Proof. reflexivity. Qed.

Lemma silentTicks_quiet : Forall quiet silentTicks.
Proof. repeat constructor. Qed.

Lemma silence_triggers_stop_witness :
  ascending (clock session :: map fst silentTicks) /\
  SILENCE_DURATION_MS <= span silentTicks /\
  exists pre tk post,
    silentTicks = pre ++ tk :: post /\
    map isDictating (history silentTicks session) =
      repeat true (length pre) ++ repeat false (S (length post)) /\
    Idle (run silentTicks session).
Proof.
  assert (Hasc : ascending (clock session :: map fst silentTicks))
    by (vm_compute; repeat split; discriminate).
  assert (Hspan : SILENCE_DURATION_MS <= span silentTicks)
    by (vm_compute; discriminate).
  destruct (silence_triggers_stop silentTicks session session_Listening
              Hasc silentTicks_quiet Hspan)
    as (pre & tk & post & E & _ & _ & _ & Hmap & Hafter).
  split; [exact Hasc|]. split; [exact Hspan|].
  exists pre, tk, post. split; [exact E|]. split; [exact Hmap|].
  pose proof (Hafter []) as H0. cbv zeta in H0. rewrite run_nil in H0.
  exact (proj1 H0).
Defined.

Lemma alternatingTicks_alternating :
  Forall (alternating false 0) alternatingTicks.
Proof. repeat constructor. Qed.

Lemma speech_resets_timer_witness :
  paced (clock mounted :: map fst alternatingTicks) /\
  Listening (run alternatingTicks speakingSession) /\
  isDictating (run alternatingTicks speakingSession) = true.
Proof.
  assert (Hpace : paced (clock mounted :: map fst alternatingTicks))
    by (vm_compute; repeat split; discriminate).
  pose proof (speech_resets_timer false 0 (grantAll loudFrame) mounted
                alternatingTicks mounted_Idle mounted_Mounted eq_refl
                eq_refl Hpace alternatingTicks_alternating) as H.
  cbv zeta in H. destruct H as (_ & HL & Hd).
  split; [exact Hpace|]. split; [exact HL|exact Hd].
Defined.

Lemma helloEvent_wellFormed : wellFormed helloEvent.
Proof. repeat constructor; discriminate. Qed.

Lemma onresult_forwards_final_transcripts_witness :
  wellFormed helloEvent /\
  dictated (exec (onresult helloEvent) session) = [of_string "Hello world."].
Proof.
  split; [exact helloEvent_wellFormed|].
  destruct (onresult_forwards_final_transcripts helloEvent session
              helloEvent_wellFormed) as (_ & Hd & _).
  rewrite Hd. reflexivity.
Defined.

(* ================================================================== *)
(** ** The volume of a frame *)

Lemma fold_frameSum (l : list Z) (a : Z) :
  fold_left (fun sum d => sum + Z.abs (d - 128)) l a = a + frameSum l.
Proof.
  unfold frameSum. revert a. induction l as [|x l IH]; intros a; cbn.
  - lia.
  - rewrite (IH (a + Z.abs (x - 128))), (IH (Z.abs (x - 128))). lia.
Qed.

Lemma frameSum_cons (x : Z) (l : list Z) :
  frameSum (x :: l) = Z.abs (x - 128) + frameSum l.
Proof. unfold frameSum at 1. cbn. apply fold_frameSum. Qed.

Lemma isSpeaking_sum (dataArray : list Z) :
  isSpeaking dataArray = true <->
  SILENCE_THRESHOLD * Z.of_nat (length dataArray) < frameSum dataArray.
Proof.
  unfold isSpeaking, averageVolume.
  destruct dataArray as [|x l].
  - cbn. split; [discriminate|lia].
  - set (n := length (x :: l)). set (sum := frameSum (x :: l)).
    assert (Hn : Z.pos (Pos.of_nat n) = Z.of_nat n).
    { unfold n. cbn [length]. rewrite <- Pos.of_nat_succ. reflexivity. }
    rewrite negb_true_iff, <- not_true_iff_false, Qle_bool_iff.
    unfold Qle, inject_Z. cbn [Qnum Qden]. rewrite Hn. lia.
Qed.

(** X1. A frame counts as speech exactly when the sum of its samples'
    distances from the midpoint 128 exceeds [SILENCE_THRESHOLD] times the
    number of samples; an empty frame (whose average is NaN) never
    does. *)
Theorem isSpeaking_iff_sum :
  forall dataArray,
    isSpeaking dataArray = true <->
    SILENCE_THRESHOLD * Z.of_nat (length dataArray) < frameSum dataArray.
Proof. exact isSpeaking_sum. Qed.

Lemma frameSum_bounds (dataArray : list Z) (lo hi : Z) :
  Forall (fun d => lo <= Z.abs (d - 128) <= hi) dataArray ->
  lo * Z.of_nat (length dataArray) <= frameSum dataArray
    <= hi * Z.of_nat (length dataArray).
Proof.
  induction 1 as [|x l Hx _ IH].
  - cbn. lia.
  - rewrite frameSum_cons. cbn [length]. lia.
Qed.

(** X2. For byte samples the sum of distances from the midpoint lies
    between 0 and 128 per sample, so the average volume lies in
    [0, 128] and the threshold 5 can be exceeded. *)
Theorem frameSum_byteFrame :
  forall dataArray, byteFrame dataArray ->
    0 <= frameSum dataArray <= 128 * Z.of_nat (length dataArray).
Proof.
  intros dataArray Hb.
  pose proof (frameSum_bounds dataArray 0 128) as H. cbn in H. apply H.
  eapply Forall_impl; [|exact Hb]. cbn. intros d Hd. lia.
Qed.

(** X3. A frame whose samples all lie within [SILENCE_THRESHOLD] of the
    midpoint is silence; a non-empty frame whose samples all lie further
    away is speech. *)
Theorem isSpeaking_uniform :
  forall dataArray,
    (Forall (fun d => Z.abs (d - 128) <= SILENCE_THRESHOLD) dataArray ->
     isSpeaking dataArray = false) /\
    (dataArray <> [] ->
     Forall (fun d => SILENCE_THRESHOLD < Z.abs (d - 128)) dataArray ->
     isSpeaking dataArray = true).
Proof.
  intros dataArray. unfold SILENCE_THRESHOLD. split.
  - intros H. apply not_true_iff_false. rewrite isSpeaking_sum.
    unfold SILENCE_THRESHOLD.
    assert (H' : Forall (fun d => 0 <= Z.abs (d - 128) <= 5) dataArray)
      by (eapply Forall_impl; [|exact H]; cbn; intros; lia).
    pose proof (frameSum_bounds dataArray 0 5 H'). lia.
  - intros Hne H. apply isSpeaking_sum. unfold SILENCE_THRESHOLD.
    assert (H' : Forall (fun d => 6 <= Z.abs (d - 128) <= Z.abs (d - 128) + 0)
                        dataArray)
      by (eapply Forall_impl; [|exact H]; cbn; intros; lia).
    assert (Hlo : 6 * Z.of_nat (length dataArray) <= frameSum dataArray).
    { clear H Hne. induction H' as [|x l Hx _ IH]; [cbn; lia|].
      rewrite frameSum_cons. cbn [length]. lia. }
    destruct dataArray; [congruence|]. cbn [length] in *. lia.
Qed.

(* ================================================================== *)
(** ** The button and the recognizer's events *)

Lemma toggleDictation_idle (env : StartEnv) (w : World) :
  isDictating w = false -> toggleDictation env w = startDictation env w.
Proof. intros H. unfold toggleDictation, bind, read. now rewrite H. Qed.

Lemma toggleDictation_dictating (env : StartEnv) (w : World) :
  isDictating w = true -> toggleDictation env w = stopDictation w.
Proof. intros H. unfold toggleDictation, bind, read. now rewrite H. Qed.

(** X4. A click on an idle mounted button whose acquisition succeeds
    starts a session; the next click stops it, whatever the host would
    answer, and leaves the component idle with the same recognizer. *)
Theorem toggleDictation_starts_then_stops :
  forall env env' w, Idle w -> Mounted w -> succeeds env = true ->
    let w1 := exec (toggleDictation env) w in
    let w2 := exec (toggleDictation env') w1 in
    Listening w1 /\ Idle w2 /\ recognitionRef w2 = recognitionRef w.
Proof.
  intros env env' w HI HM Hok. cbv zeta. unfold exec.
  rewrite (toggleDictation_idle env w (I_dictating w HI)).
  rewrite (startDictation_started env w HI HM Hok). cbn [snd].
  pose proof (started_Listening env w HM) as L.
  rewrite (toggleDictation_dictating env' _ (L_dictating _ L)).
  rewrite (stopDictation_released _ (Listening_releasable _ L)). cbn [snd].
  split; [exact L|]. split; [apply Listening_released_Idle, L|reflexivity].
Qed.

(** X5. On a host without speech recognition the effect creates no
    recognizer, and no sequence of clicks changes anything: no state
    update, no microphone request, no notification. *)
Theorem clicks_unsupported :
  forall envs w, recognitionRef w = None -> isDictating w = false ->
    clicks envs (exec (mount false) w) = w.
Proof.
  intros envs w Hr Hd. change (exec (mount false) w) with w.
  unfold clicks. induction envs as [|env envs IH]; cbn [fold_left]; [reflexivity|].
  unfold exec at 2. rewrite (toggleDictation_idle env w Hd).
  unfold startDictation, bind, read. rewrite Hr. cbn [snd ret]. exact IH.
Qed.

(** X6. When the recognizer ends by itself or reports an error during a
    session, the session is stopped and the component is idle, whether
    the recognizer is still started when the event is delivered or, as
    for an end event, has stopped already.  Neither event raises an
    alert; an error leaves one line on the console, an end leaves none. *)
Theorem recognizer_events_stop_session :
  forall w code rc, Listening w -> rc = [] \/ rc = recognizing w ->
    let w0 := set_recognizing rc w in
    Idle (exec onend w0) /\
    alerts (exec onend w0) = alerts w /\
    console (exec onend w0) = console w /\
    Idle (exec (onerror code) w0) /\
    alerts (exec (onerror code) w0) = alerts w /\
    console (exec (onerror code) w0) =
      console w ++ [("Speech recognition error: " ++ code)%string].
Proof.
  intros w code rc L Hrc. cbv zeta.
  listening_fields w L.
  destruct Hrc as [Hrc|Hrc]; rewrite Hrc; clear Hrc;
    destruct Ht as [[Hn Htm]|(t & d & Hst & Htm & Ht0 & Htlt & Hd')];
    cbn [silenceTimerRef timers clock nextHandle recognizing] in *; subst;
    js_cases; repeat split; reflexivity.
Qed.

(* ================================================================== *)
(** ** What the stop path leaves alone *)

Lemma In_filter_keep (A : Type) (f : A -> bool) (l : list A) (x : A) :
  In x l -> f x = true -> In x (filter f l).
Proof. intros H E. apply filter_In. now split. Qed.

Lemma In_filter_sub (A : Type) (f : A -> bool) (l : list A) (x : A) :
  In x (filter f l) -> In x l.
Proof. intros H. now apply filter_In in H. Qed.

Lemma neqb_true (x y : Z) : Some y <> Some x -> negb (x =? y) = true.
Proof.
  intros H. apply negb_true_iff, Z.eqb_neq. intros E. apply H. now subst.
Qed.

(** X7. In any state, [stopDictation] only takes away from the host what
    the component holds: it adds no timer, frame, stream or context, and
    a pending timer, a pending frame, a live stream or an open context
    that its refs do not name stays.  It raises no alert, writes nothing
    to the console, forwards no text and keeps the recognizer handle. *)
Theorem stopDictation_frame :
  forall w,
    let w' := exec stopDictation w in
    isDictating w' = false /\
    recognitionRef w' = recognitionRef w /\
    alerts w' = alerts w /\ console w' = console w /\
    dictated w' = dictated w /\
    (forall e, In e (timers w') -> In e (timers w)) /\
    (forall e, In e (timers w) -> silenceTimerRef w <> Some (fst e) ->
               In e (timers w')) /\
    (forall f, In f (frames w') -> In f (frames w)) /\
    (forall f, In f (frames w) -> animationFrameRef w <> Some f ->
               In f (frames w')) /\
    (forall s, In s (liveStreams w') -> In s (liveStreams w)) /\
    (forall s, In s (liveStreams w) -> streamRef w <> Some s ->
               In s (liveStreams w')) /\
    (forall c, In c (openContexts w') -> In c (openContexts w)) /\
    (forall c, In c (openContexts w) -> audioContextRef w <> Some c ->
               In c (openContexts w')).
Proof.
  intros [d r c s st af clk nh tm fr ls oc rc al co di]. cbv zeta.
  js_unfold; cbn.
  repeat (break_match; cbn); inv_pairs; try discriminate; cbn;
    repeat match goal with
           | |- _ /\ _ => split
           end;
    try reflexivity; intros x Hin; try intros Hne;
    try assumption;
    try (eapply In_filter_sub; eassumption);
    try (apply In_filter_keep; [assumption|now apply neqb_true]).
Qed.

(** X8. When the audio context the component holds is already closed,
    [stopDictation] does not close it again and does not clear
    [audioContextRef]: the handle of the closed context stays. *)
Theorem stopDictation_closed_context :
  forall w c,
    audioContextRef w = Some c -> mem c (openContexts w) = false ->
    fst (stopDictation w) = Normal tt /\
    audioContextRef (exec stopDictation w) = Some c /\
    openContexts (exec stopDictation w) = openContexts w.
Proof.
  intros [d r c0 s st af clk nh tm fr ls oc rc al co di] c Hc Hclosed.
  cbn [audioContextRef openContexts] in Hc, Hclosed. subst c0.
  unfold mem in Hclosed.
  js_unfold; cbn.
  repeat (break_match; cbn); inv_pairs; try discriminate; cbn;
    try congruence; repeat split; reflexivity.
Qed.

(* ================================================================== *)
(** ** The effect run again *)

(** X9. When the effect runs again during a session (the [onDictation]
    prop changed), its cleanup stops the session and its body installs a
    new recognizer: the component is idle, and the recognizer it holds is
    not the one the session used. *)
Theorem rerunEffect_ends_session :
  forall w, Listening w ->
    let w' := exec (rerunEffect true) w in
    Idle w' /\ Mounted w' /\
    recognitionRef w' = Some (nextHandle w) /\
    recognitionRef w' <> recognitionRef w.
Proof.
  intros w L. cbv zeta.
  assert (E : exec (rerunEffect true) w =
              set_recognitionRef (Some (nextHandle w))
                (set_nextHandle (nextHandle w + 1) (released w))).
  { unfold exec, rerunEffect, bind.
    rewrite (stopDictation_released w (Listening_releasable w L)).
    reflexivity. }
  rewrite E.
  pose proof (Listening_released_Idle w L) as HI.
  destruct L as [_ (r & Hr & _ & Hrlt) _ _ _ _ Hnh].
  split; [destruct HI; split; assumption|].
  split; [split; [eexists; split; [reflexivity|cbn; lia]|cbn; lia]|].
  split; [reflexivity|].
  cbn. rewrite Hr. intros H. inversion H. lia.
Qed.

(* ================================================================== *)
(** ** Ticks outside and inside a session *)

Lemma set_clock_twice (a b : Z) (w : World) :
  set_clock a (set_clock b w) = set_clock a w.
Proof. reflexivity. Qed.

Lemma run_Idle_clock (ticks : list (Z * list Z)) :
  forall w, Idle w -> run ticks w = set_clock (clock (run ticks w)) w.
Proof.
  induction ticks as [|tk rest IH]; intros w HI; cbn [run].
  - now destruct w.
  - rewrite (tick_Idle tk w HI).
    rewrite (IH _ (Idle_set_clock _ w HI)) at 1.
    apply set_clock_twice.
Qed.

(** X10. After [stopDictation] has run on an active session nothing of
    the session is left scheduled: whatever time passes and whatever
    frames are rendered afterwards, no timer fires and no monitoring tick
    runs, and only the clock of the world changes. *)
Theorem stopped_session_ticks_change_nothing :
  forall ticks w, Listening w ->
    let w1 := exec stopDictation w in
    run ticks w1 = set_clock (clock (run ticks w1)) w1.
Proof.
  intros ticks w L. cbv zeta. apply run_Idle_clock.
  unfold exec. rewrite (stopDictation_released w (Listening_releasable w L)).
  apply Listening_released_Idle, L.
Qed.

(** X11. While a session is pending its silence timer, further quiet
    samples before the deadline neither postpone it nor arm a second
    timer: the same handle with the same deadline stays pending. *)
Theorem quiet_tick_keeps_deadline :
  forall tk w t d,
    Listening w -> timers w = [(t, d)] ->
    isSpeaking (snd tk) = false -> clock w <= fst tk < d ->
    timers (tick tk w) = [(t, d)] /\
    silenceTimerRef (tick tk w) = silenceTimerRef w /\
    Listening (tick tk w).
Proof.
  intros tk w t d L Htm Hq [Hclk Hlt].
  assert (Hp : forall id' d', In (id', d') (timers w) -> fst tk < d').
  { rewrite Htm. intros id' d' [H|[]]. inversion H; subst. exact Hlt. }
  destruct (tick_quiet_pending tk w L Hq Hclk Hp) as (L' & _ & id' & Htm' & Hs').
  destruct (Listening_timers w L) as [E|(t0 & d0 & E & Hs)];
    [rewrite E in Htm; discriminate|].
  rewrite Htm in E. inversion E; subst t0 d0.
  assert (Hkeep : timers (tick tk w) = [(t, d)]).
  { rewrite (tick_pending tk w L Hp). unfold monitored. rewrite Hq.
    cbn [timers set_clock]. rewrite Htm. cbn. exact Htm. }
  split; [exact Hkeep|]. split; [|exact L'].
  rewrite (tick_pending tk w L Hp). unfold monitored. rewrite Hq.
  cbn [timers set_clock]. rewrite Htm. reflexivity.
Qed.

(* ================================================================== *)
(** ** Starts that overlap *)

(** X12. [startDictation] on a session that is already active acquires
    a second stream, context and frame, fails at [recognition.start()]
    (the recognizer is started), alerts and runs the stop path.  The
    stop path releases what the second start acquired; the stream and the
    audio context of the first session stay live with no ref left to
    them, and its frame callback stays pending. *)
Theorem startDictation_while_active :
  forall env w, Listening w -> succeeds env = true ->
    let w' := exec (startDictation env) w in
    fst (startDictation env w) = Normal tt /\
    isDictating w' = false /\
    alerts w' = alerts w ++ [startAlert] /\
    streamRef w' = None /\ audioContextRef w' = None /\
    animationFrameRef w' = None /\ silenceTimerRef w' = None /\
    liveStreams w' = liveStreams w /\
    openContexts w' = openContexts w /\
    frames w' = frames w /\
    timers w' = [] /\ recognizing w' = [].
Proof.
  intros env w L Hok. cbv zeta.
  destruct env as [g a b k ff]. unfold succeeds in Hok; cbn in Hok.
  repeat (apply andb_prop in Hok; destruct Hok as [Hok ?]); subst.
  listening_fields w L. unfold startAlert.
  destruct (isSpeaking ff) eqn:E;
    destruct Ht as [[Hn Htm]|(t & d & Hst & Htm & Ht0 & Htlt & Hd')];
    cbn [silenceTimerRef timers clock nextHandle] in *; subst;
    js_cases; repeat split; reflexivity.
Qed.

Lemma startDictation_split (env : StartEnv) (w : World) :
  startDictation env w =
    (suspended <- startDictationUntilAwait ;;
     if suspended then startDictationAfterAwait env else ret tt) w.
Proof.
  unfold startDictation, startDictationUntilAwait, startDictationAfterAwait,
    bind, read, ret.
  destruct (recognitionRef w); reflexivity.
Qed.

(** X13. A stop that arrives while [startDictation] waits for the
    microphone does not cancel the start.  When access is then granted
    the stream, the audio context, the monitoring loop and the recognizer
    are all acquired as in a normal start, although the component shows
    that it is not dictating. *)
Theorem stop_during_acquisition :
  forall env w, Idle w -> Mounted w -> succeeds env = true ->
    let w1 := exec startDictationUntilAwait w in
    let w2 := exec stopDictation w1 in
    let w3 := exec (startDictationAfterAwait env) w2 in
    isDictating w1 = true /\
    w2 = w /\
    w3 = set_isDictating false (started env w) /\
    isDictating w3 = false /\
    liveStreams w3 = [nextHandle w] /\
    openContexts w3 = [nextHandle w + 1] /\
    frames w3 <> [] /\ recognizing w3 <> [].
Proof.
  intros env w HI HM Hok. cbv zeta.
  assert (E1 : exec startDictationUntilAwait w = set_isDictating true w).
  { destruct HM as [(r & Hr & _) _].
    unfold exec, startDictationUntilAwait, bind, read. rewrite Hr. reflexivity. }
  assert (E2 : exec stopDictation (set_isDictating true w) = w).
  { unfold exec. rewrite stopDictation_released.
    - cbn [snd]. transitivity (released w); [reflexivity|].
      apply Idle_released, HI.
    - destruct HI. split; cbn; intros x Hx; congruence. }
  assert (E3 : exec (startDictationAfterAwait env) w =
               set_isDictating false (started env w)).
  { clear E1 E2.
    destruct HI as [Hd Hc Hs Ht Hf Htm Hfr Hls Hoc Hrc].
    destruct HM as [(r & Hr & Hlt) Hnh].
    destruct w as [d r0 c s st af clk nh tm fr ls oc rc al co di].
    cbn in Hd, Hc, Hs, Ht, Hf, Htm, Hfr, Hls, Hoc, Hrc, Hr, Hlt, Hnh; subst.
    destruct env as [g a b k ff]. unfold succeeds in Hok; cbn in Hok.
    repeat (apply andb_prop in Hok; destruct Hok as [Hok ?]); subst.
    unfold started, startDictationAfterAwait;
      cbn [nextHandle firstFrame recognitionRef clock alerts console dictated].
    destruct (isSpeaking ff) eqn:E; js_cases. }
  rewrite E1, E2, E3.
  split; [reflexivity|]. split; [reflexivity|]. split; [reflexivity|].
  split; [reflexivity|]. split; [reflexivity|]. split; [reflexivity|].
  destruct HM as [(r & Hr & _) _].
  unfold started; cbn. rewrite Hr. split; discriminate.
Qed.

(* ================================================================== *)
(** ** Recognition events at the edges *)

Lemma finalText_finalTextOf (event : SpeechRecognitionEvent) :
  finalText event = finalTextOf (skipn (resultIndex event) (results event)).
Proof. reflexivity. Qed.

Lemma filter_none (A : Type) (f : A -> bool) (l : list A) :
  Forall (fun x => f x = false) l -> filter f l = [].
Proof.
  induction 1 as [|x l Hx _ IH]; cbn; [reflexivity|]. now rewrite Hx.
Qed.

(** X14. An event whose scanned range holds no final entry (only interim
    results, or a [resultIndex] at or past the end of the list) makes no
    call of [onDictation] and changes nothing. *)
Theorem onresult_interim_only :
  forall event w,
    Forall (fun r => isFinal r = false)
           (skipn (resultIndex event) (results event)) ->
    onresult event w = (Normal tt, w).
Proof.
  intros event w H.
  assert (Hwf : wellFormed event).
  { unfold wellFormed. eapply Forall_impl; [|exact H].
    cbn. intros r Hr Hfin. congruence. }
  rewrite (onresult_finalText event w Hwf).
  unfold finalText. rewrite (filter_none _ _ _ H). reflexivity.
Qed.

Lemma scanResults_throws (n : nat) :
  forall rs i acc,
    (length rs - i = n)%nat ->
    Exists (fun r => isFinal r = true /\ alternatives r = []) (skipn i rs) ->
    scanResults rs i n acc = Throw TypeError.
Proof.
  induction n as [|n IH]; intros rs i acc Hlen Hex; cbn [scanResults].
  - rewrite skipn_all2 in Hex by lia. inversion Hex.
  - destruct (nth_error rs i) as [r|] eqn:E; [|reflexivity].
    rewrite (skipn_nth_error _ _ _ _ E) in Hex.
    destruct (isFinal r) eqn:Hfin.
    + destruct (alternatives r) as [|a l] eqn:Ha; [reflexivity|].
      cbn [nth_error]. apply IH; [lia|].
      inversion Hex as [? ? [_ Hbad]|? ? Hrest]; subst; [congruence|exact Hrest].
    + apply IH; [lia|].
      inversion Hex as [? ? [Hbad _]|? ? Hrest]; subst; [congruence|exact Hrest].
Qed.

(** X15. When a final entry in the scanned range has no alternative, the
    handler throws a [TypeError] and forwards nothing, not even the text
    of the final entries before it. *)
Theorem onresult_missing_alternative :
  forall event w,
    Exists (fun r => isFinal r = true /\ alternatives r = [])
           (skipn (resultIndex event) (results event)) ->
    onresult event w = (Throw TypeError, w).
Proof.
  intros event w H. unfold onresult.
  now rewrite (scanResults_throws _ (results event) (resultIndex event) []
                 eq_refl H).
Qed.

(** X16. Two events in a row, the second reporting as [resultIndex] the
    length of the list the first one scanned: the second forwards the
    text of the new results only, so no final transcript is forwarded
    twice. *)
Theorem onresult_successive_events :
  forall old new w,
    Forall (fun r => isFinal r = true -> alternatives r <> []) (old ++ new) ->
    let first := {| resultIndex := 0; results := old |} in
    let second := {| resultIndex := length old; results := old ++ new |} in
    dictated (exec (onresult second) (exec (onresult first) w)) =
      dictated w ++ forwarded (finalTextOf old) ++ forwarded (finalTextOf new).
Proof.
  intros old new w Hwf. cbv zeta.
  assert (Hold : wellFormed {| resultIndex := 0; results := old |}).
  { unfold wellFormed. cbn. apply Forall_app in Hwf. tauto. }
  assert (Hnew : wellFormed {| resultIndex := length old; results := old ++ new |}).
  { unfold wellFormed. cbn [resultIndex results].
    rewrite skipn_app, skipn_all, Nat.sub_diag. cbn.
    apply Forall_app in Hwf. tauto. }
  unfold exec. rewrite (onresult_finalText _ w Hold). cbn [snd].
  rewrite (onresult_finalText _ _ Hnew). cbn [snd].
  rewrite !finalText_finalTextOf. cbn [resultIndex results].
  rewrite skipn_app, skipn_all, Nat.sub_diag. cbn [skipn app].
  unfold forwarded.
  destruct (truthy (finalTextOf old)), (truthy (finalTextOf new)); cbn;
    rewrite ?app_nil_r, <- ?app_assoc; reflexivity.
Qed.

(* ================================================================== *)
(** ** The text of the application *)

Lemma hasInk_dec (s : jsstring) :
  hasInk s \/ Forall (fun c => isWhiteSpace c = true) s.
Proof.
  induction s as [|c s [H|H]].
  - right. constructor.
  - left. destruct H as (x & Hin & Hx). exists x. split; [now right|exact Hx].
  - destruct (isWhiteSpace c) eqn:E.
    + right. now constructor.
    + left. exists c. split; [now left|exact E].
Qed.

Lemma trimStart_blank (s : jsstring) :
  Forall (fun c => isWhiteSpace c = true) s -> trimStart s = [].
Proof.
  induction 1 as [|c s Hc _ IH]; cbn; [reflexivity|]. now rewrite Hc.
Qed.

Lemma trimStart_app_blank (s l : jsstring) :
  Forall (fun c => isWhiteSpace c = true) s -> trimStart (s ++ l) = trimStart l.
Proof.
  induction 1 as [|c s Hc _ IH]; cbn; [reflexivity|]. now rewrite Hc.
Qed.

Lemma trimStart_app_ink (s l : jsstring) :
  hasInk s -> trimStart (s ++ l) = trimStart s ++ l.
Proof.
  induction s as [|c s IH]; intros (x & Hin & Hx); [destruct Hin|].
  cbn. destruct (isWhiteSpace c) eqn:E; [|reflexivity].
  apply IH. destruct Hin as [->|Hin]; [congruence|]. now exists x.
Qed.

Lemma trimStart_hasInk (s : jsstring) : hasInk s -> hasInk (trimStart s).
Proof.
  induction s as [|c s IH]; intros (x & Hin & Hx); [destruct Hin|].
  cbn. destruct (isWhiteSpace c) eqn:E.
  - apply IH. destruct Hin as [->|Hin]; [congruence|]. now exists x.
  - exists c. split; [now left|exact E].
Qed.

Lemma trimEnd_ink_last (l : jsstring) (c : N) :
  isWhiteSpace c = false -> trimEnd (l ++ [c]) = l ++ [c].
Proof.
  intros Hc. unfold trimEnd. rewrite rev_app_distr. cbn. rewrite Hc.
  cbn. now rewrite rev_involutive.
Qed.

Lemma trimEnd_blank_last (l : jsstring) (c : N) :
  isWhiteSpace c = true -> trimEnd (l ++ [c]) = trimEnd l.
Proof.
  intros Hc. unfold trimEnd. rewrite rev_app_distr. cbn. now rewrite Hc.
Qed.

Lemma trimmed_last (d : jsstring) :
  trimmed d -> d <> [] -> exists r c, d = r ++ [c] /\ isWhiteSpace c = false.
Proof.
  intros [_ Hlast] Hne.
  destruct (exists_last Hne) as (r & c & E).
  exists r, c. split; [exact E|exact (Hlast c r E)].
Qed.

(** X17. Dictated text that is trimmed and not empty is appended to a
    text that has a non-blank character after one space; white space at
    the start of the previous text is dropped, nothing else changes. *)
Theorem handleDictation_appends :
  forall dictatedText s,
    hasInk (text s) -> trimmed dictatedText -> dictatedText <> [] ->
    handleDictation dictatedText s =
      setText (trimStart (text s) ++ of_string " " ++ dictatedText) s.
Proof.
  intros d s Hink Htr Hne. unfold handleDictation. f_equal.
  assert (Htruthy : truthy (text s) = true).
  { destruct (text s); [|reflexivity]. destruct Hink as (x & [] & _). }
  rewrite Htruthy. unfold trim.
  rewrite (trimStart_app_ink _ _ Hink).
  destruct (trimmed_last d Htr Hne) as (r & c & -> & Hc).
  rewrite !app_assoc. apply trimEnd_ink_last, Hc.
Qed.

(** X18. An empty dictated text adds nothing: the text of the
    application becomes its own trim. *)
Theorem handleDictation_empty :
  forall s, handleDictation [] s = setText (trim (text s)) s.
Proof.
  intros s. unfold handleDictation. f_equal.
  destruct (text s) as [|c p] eqn:E; [reflexivity|].
  cbn [truthy]. rewrite app_nil_r. change (of_string " ") with [32%N].
  unfold trim.
  destruct (hasInk_dec (c :: p)) as [Hink|Hblank].
  - rewrite (trimStart_app_ink _ _ Hink). now apply trimEnd_blank_last.
  - rewrite (trimStart_app_blank _ _ Hblank), (trimStart_blank _ Hblank).
    reflexivity.
Qed.

(** X19. When the dictated text is trimmed, as every text the result
    handler forwards is, the text of the application is trimmed after
    [handleDictation]. *)
Theorem handleDictation_trimmed :
  forall finalTranscript s,
    trimmed (text (handleDictation (trim finalTranscript) s)).
Proof.
  intros ft s. unfold handleDictation. cbn [text setText].
  destruct (truthy (text s)); apply trim_trimmed.
Qed.

(* ================================================================== *)
(** ** The speech request *)

Lemma hasInk_rev (s : jsstring) : hasInk s -> hasInk (rev s).
Proof.
  intros (x & Hin & Hx). exists x. split; [now apply in_rev in Hin|exact Hx].
Qed.

Lemma hasInk_nonempty (s : jsstring) : hasInk s -> s <> [].
Proof. intros (x & Hin & _) E. subst. destruct Hin. Qed.

Lemma truthy_trim (s : jsstring) : truthy (trim s) = true <-> hasInk s.
Proof.
  split.
  - intros H. destruct (hasInk_dec s) as [Hink|Hblank]; [exact Hink|].
    unfold trim in H. rewrite (trimStart_blank _ Hblank) in H. discriminate.
  - intros Hink. unfold trim, trimEnd.
    pose proof (hasInk_nonempty _
                  (trimStart_hasInk _ (hasInk_rev _ (trimStart_hasInk _ Hink))))
      as Hne.
    destruct (rev (trimStart (rev (trimStart s)))) as [|c l] eqn:E;
      [|reflexivity].
    apply (f_equal (@rev N)) in E. rewrite rev_involutive in E. contradiction.
Qed.

(** X20. The service is called exactly when the text has a character
    that is not white space.  A blank text only raises the error toast:
    the loading flag, the audio and the text stay as they are. *)
Theorem handleGenerateSpeech_blank_text :
  forall now later outcome s,
    (snd (handleGenerateSpeechUntilAwait now s) = true <-> hasInk (text s)) /\
    (~ hasInk (text s) ->
     handleGenerateSpeech now later outcome s =
       setToast (Some {| toast_id := now; toast_type := error;
                         toast_message := "Please enter some text to synthesize." |})
                s).
Proof.
  intros now later outcome s.
  unfold handleGenerateSpeech, handleGenerateSpeechUntilAwait.
  pose proof (truthy_trim (text s)) as Ht.
  destruct (truthy (trim (text s))); cbn [negb snd].
  - split; [tauto|]. intros Hno. exfalso. apply Hno, Ht. reflexivity.
  - split; [|reflexivity]. split; [discriminate|].
    intros Hink. apply Ht in Hink. discriminate.
Qed.

Lemma handleGenerateSpeech_request (now later : Z) (outcome : Settled)
    (s : AppState) :
  hasInk (text s) ->
  handleGenerateSpeech now later outcome s =
    handleGenerateSpeechAfterAwait s later outcome
      (showToast now loading "Generating speech, please wait..."
         (setAudioData None (setIsLoading true s))).
Proof.
  intros Hink. unfold handleGenerateSpeech, handleGenerateSpeechUntilAwait.
  now rewrite (proj2 (truthy_trim (text s)) Hink).
Qed.

(** X21. A request on a text that is not blank, made while no loading
    toast is showing, ends with the loading flag off and the text
    untouched: with the audio data and the success toast when the service
    resolves, with no audio (the previous audio is dropped) and an error
    toast carrying the error's message when it rejects. *)
Theorem handleGenerateSpeech_settles :
  forall now later s,
    hasInk (text s) -> isLoadingToast (toast s) = false ->
    (forall data,
       handleGenerateSpeech now later (Resolved data) s =
         mkApp (text s) false (Some data)
           (Some {| toast_id := later; toast_type := success;
                    toast_message := "Speech generated successfully!" |})) /\
    (forall message,
       handleGenerateSpeech now later (Rejected (ErrorObject message)) s =
         mkApp (text s) false None
           (Some {| toast_id := later; toast_type := error;
                    toast_message := "Error: " ++ message |})) /\
    handleGenerateSpeech now later (Rejected OtherValue) s =
      mkApp (text s) false None
        (Some {| toast_id := later; toast_type := error;
                 toast_message := "Error: An unknown error occurred." |}).
Proof.
  intros now later s Hink Hclosure.
  repeat split; intros;
    rewrite (handleGenerateSpeech_request _ _ _ _ Hink);
    unfold handleGenerateSpeechAfterAwait; rewrite Hclosure; reflexivity.
Qed.

(** X22. The check that ends the handler reads the toast of the render
    the handler was created in.  When that toast was a loading toast, the
    handler clears the toast after it has set the success or error toast,
    so the request ends with no toast at all; the loading flag is off and
    the audio is as the outcome sets it. *)
Theorem handleGenerateSpeech_stale_toast :
  forall now later outcome s,
    hasInk (text s) -> isLoadingToast (toast s) = true ->
    let s' := handleGenerateSpeech now later outcome s in
    toast s' = None /\ isLoading s' = false /\ text s' = text s /\
    audioData s' =
      match outcome with Resolved data => Some data | Rejected _ => None end.
Proof.
  intros now later outcome s Hink Hclosure. cbv zeta.
  rewrite (handleGenerateSpeech_request _ _ _ _ Hink).
  unfold handleGenerateSpeechAfterAwait. rewrite Hclosure.
  destruct outcome as [data|[m|]]; repeat split; reflexivity.
Qed.

(* ================================================================== *)
(** ** Further facts on the loop and the result handler *)

(** X23. With no silence timer pending, a quiet sample at time [t] arms
    one timer, due [SILENCE_DURATION_MS] after [t], under a handle the
    host had not given out before: the silence window counts from the
    first quiet sample. *)
Theorem quiet_tick_arms_timer :
  forall tk w,
    Listening w -> timers w = [] ->
    isSpeaking (snd tk) = false -> clock w <= fst tk ->
    exists h,
      timers (tick tk w) = [(h, fst tk + SILENCE_DURATION_MS)] /\
      silenceTimerRef (tick tk w) = Some h /\
      nextHandle w <= h.
Proof.
  intros tk w L Htm Hq Hclk.
  assert (Hp : forall id' d', In (id', d') (timers w) -> fst tk < d')
    by (rewrite Htm; intros ? ? []).
  rewrite (tick_pending tk w L Hp). unfold monitored. rewrite Hq.
  cbn [timers set_clock]. rewrite Htm. cbn.
  exists (nextHandle w). replace (Z.max (clock w) (fst tk)) with (fst tk) by lia.
  repeat split; lia.
Qed.

(** X24. Whatever the event, the handler makes at most one call of
    [onDictation], and the text of that call has no white space at
    either end. *)
Theorem onresult_forwards_trimmed :
  forall event w,
    exists calls,
      dictated (exec (onresult event) w) = dictated w ++ calls /\
      (length calls <= 1)%nat /\
      Forall trimmed calls.
Proof.
  intros event w. unfold exec, onresult.
  destruct (scanResults _ _ _ _) as [ft|e].
  - destruct (truthy ft).
    + exists [trim ft]. cbn. repeat split; [lia|].
      constructor; [apply trim_trimmed|constructor].
    + exists []. cbn. rewrite app_nil_r. repeat split; [lia|constructor].
  - exists []. cbn. rewrite app_nil_r. repeat split; [lia|constructor].
Qed.

(* ================================================================== *)
(** ** The further theorems at concrete inputs *)

Lemma frameSum_byteFrame_witness :
  byteFrame loudFrame /\
  0 <= frameSum loudFrame <= 128 * Z.of_nat (length loudFrame).
Proof.
  assert (Hb : byteFrame loudFrame).
  { unfold byteFrame, loudFrame. apply Forall_forall. intros d Hd.
    apply repeat_spec in Hd. subst. lia. }
  split; [exact Hb|apply (frameSum_byteFrame loudFrame Hb)].
Defined.

Lemma toggleDictation_starts_then_stops_witness :
  Listening (exec (toggleDictation (grantAll silentFrame)) mounted) /\
  Idle (exec (toggleDictation denyMicrophone)
          (exec (toggleDictation (grantAll silentFrame)) mounted)).
Proof.
  pose proof (toggleDictation_starts_then_stops (grantAll silentFrame)
                denyMicrophone mounted mounted_Idle mounted_Mounted eq_refl)
    as H.
  cbv zeta in H. destruct H as (H1 & H2 & _). split; assumption.
Defined.

Lemma clicks_unsupported_witness :
  clicks [grantAll silentFrame; denyMicrophone; grantAll loudFrame]
         (exec (mount false) init) = init.
Proof.
  apply (clicks_unsupported
           [grantAll silentFrame; denyMicrophone; grantAll loudFrame] init);
    reflexivity.
Defined.

Lemma recognizer_events_stop_session_witness :
  Idle (exec onend (set_recognizing [] session)) /\
  Idle (exec (onerror "no-speech") (set_recognizing [] session)) /\
  alerts (exec (onerror "no-speech") (set_recognizing [] session)) = [].
Proof.
  pose proof (recognizer_events_stop_session session "no-speech" []
                session_Listening (or_introl eq_refl)) as H.
  cbv zeta in H. destruct H as (H1 & _ & _ & H2 & H3 & _).
  split; [exact H1|]. split; [exact H2|exact H3].
Defined.

Lemma stopDictation_closed_context_witness :
  mem 3 (openContexts closedContextSession) = false /\
  audioContextRef (exec stopDictation closedContextSession) = Some 3.
Proof.
  split; [reflexivity|].
  apply (stopDictation_closed_context closedContextSession 3); reflexivity.
Defined.

Lemma rerunEffect_ends_session_witness :
  Idle (exec (rerunEffect true) session) /\
  recognitionRef (exec (rerunEffect true) session) <> recognitionRef session.
Proof.
  pose proof (rerunEffect_ends_session session session_Listening) as H.
  cbv zeta in H. destruct H as (H1 & _ & _ & H2). split; assumption.
Defined.

Lemma stopped_session_ticks_change_nothing_witness :
  run alternatingTicks (exec stopDictation session) =
    set_clock (clock (run alternatingTicks (exec stopDictation session)))
      (exec stopDictation session).
Proof.
  apply (stopped_session_ticks_change_nothing alternatingTicks session
           session_Listening).
Defined.

Lemma quiet_tick_keeps_deadline_witness :
  timers session = [(4, 2000)] /\
  timers (tick (1500, silentFrame) session) = [(4, 2000)].
Proof.
  split; [reflexivity|].
  apply (quiet_tick_keeps_deadline (1500, silentFrame) session 4 2000
           session_Listening eq_refl eq_refl).
  split; [vm_compute; discriminate|reflexivity].
Defined.

Lemma startDictation_while_active_witness :
  liveStreams (exec (startDictation (grantAll loudFrame)) session) =
    liveStreams session /\
  streamRef (exec (startDictation (grantAll loudFrame)) session) = None.
Proof.
  pose proof (startDictation_while_active (grantAll loudFrame) session
                session_Listening eq_refl) as H.
  cbv zeta in H. destruct H as (_ & _ & _ & Hs & _ & _ & _ & Hl & _).
  split; assumption.
Defined.

Lemma stop_during_acquisition_witness :
  isDictating
    (exec (startDictationAfterAwait (grantAll silentFrame))
       (exec stopDictation (exec startDictationUntilAwait mounted))) = false /\
  liveStreams
    (exec (startDictationAfterAwait (grantAll silentFrame))
       (exec stopDictation (exec startDictationUntilAwait mounted))) = [2].
Proof.
  pose proof (stop_during_acquisition (grantAll silentFrame) mounted
                mounted_Idle mounted_Mounted eq_refl) as H.
  cbv zeta in H. destruct H as (_ & _ & _ & Hd & Hl & _).
  split; assumption.
Defined.

Lemma onresult_interim_only_witness :
  onresult interimEvent session = (Normal tt, session).
Proof.
  apply (onresult_interim_only interimEvent session).
  repeat constructor.
Defined.

Lemma onresult_missing_alternative_witness :
  onresult brokenEvent session = (Throw TypeError, session).
Proof.
  apply (onresult_missing_alternative brokenEvent session).
  apply Exists_cons_tl, Exists_cons_hd. split; reflexivity.
Defined.

Lemma onresult_successive_events_witness :
  dictated
    (exec (onresult {| resultIndex := length helloResults;
                       results := helloResults ++ worldResults |})
       (exec (onresult {| resultIndex := 0; results := helloResults |}) session))
  = [of_string "Hello"; of_string "world."].
Proof.
  assert (Hwf : Forall (fun r => isFinal r = true -> alternatives r <> [])
                       (helloResults ++ worldResults))
    by (repeat constructor; discriminate).
  pose proof (onresult_successive_events helloResults worldResults session Hwf)
    as H.
  cbv zeta in H. rewrite H. reflexivity.
Defined.

Lemma handleDictation_appends_witness :
  text (handleDictation (of_string "there") typedApp) = of_string "Hi there".
Proof.
  assert (Hink : hasInk (text typedApp)).
  { exists 72%N. split; [cbn; tauto|reflexivity]. }
  assert (Htr : trimmed (of_string "there"))
    by exact (trim_trimmed (of_string "there")).
  rewrite (handleDictation_appends (of_string "there") typedApp Hink Htr);
    [reflexivity|discriminate].
Defined.

Lemma handleGenerateSpeech_settles_witness :
  audioData (handleGenerateSpeech 10 20 (Resolved "UklGRg") typedApp) =
    Some "UklGRg"%string /\
  audioData (handleGenerateSpeech 10 20 (Rejected OtherValue) typedApp) = None.
Proof.
  assert (Hink : hasInk (text typedApp)).
  { exists 72%N. split; [cbn; tauto|reflexivity]. }
  pose proof (handleGenerateSpeech_settles 10 20 typedApp Hink eq_refl)
    as (H1 & _ & H3).
  rewrite H1, H3. split; reflexivity.
Defined.

Lemma handleGenerateSpeech_stale_toast_witness :
  toast (handleGenerateSpeech 10 20 (Resolved "UklGRg") loadingApp) = None.
Proof.
  assert (Hink : hasInk (text loadingApp)).
  { exists 72%N. split; [cbn; tauto|reflexivity]. }
  pose proof (handleGenerateSpeech_stale_toast 10 20 (Resolved "UklGRg")
                loadingApp Hink eq_refl) as H.
  cbv zeta in H. exact (proj1 H).
Defined.

Lemma quiet_tick_arms_timer_witness :
  timers speakingSession = [] /\
  exists h, timers (tick (700, silentFrame) speakingSession) = [(h, 2700)].
Proof.
  split; [reflexivity|].
  destruct (quiet_tick_arms_timer (700, silentFrame) speakingSession
              speakingSession_Listening eq_refl eq_refl)
    as (h & Hh & _).
  - vm_compute. discriminate.
  - exists h. exact Hh.
Defined.
